(** * Sparse Merkle binary tries: the eager and the compact engine

    A shallow embedding of [new_bintrie.py] (the eager engine, module
    [Eager]) and of [new_bintrie_optimized.py] (the compact engine, module
    [Compact]), and the properties of their specification.

    - Byte strings ([bytes], [bytearray] slices) are lists of [Byte.byte];
      [x[:n]] is [take n x], [x[n:]] is [drop n x].
    - Python integers are [Z]; the shifts and masks of the paths are written
      with [Z.shiftl], [Z.shiftr], [Z.land] and [mod].
    - The dictionary [EphemDB.kv] is a [gmap bytes bytes]; [put] overwrites.
      The read and write counters of the compact engine's [EphemDB] are
      instrumentation that no operation reads back; they are left out.
    - An exception is a value of [exn]; fallible code lives in [result].
    - [sha3] comes from [ethereum.utils]: it is a parameter of every
      definition. *)

From Stdlib Require Import ZArith List Lia Bool.
From Stdlib Require Uint63.
From Stdlib.Strings Require Import Byte.
From stdpp Require Import gmap list.

Open Scope Z_scope.

(** ** Bytes *)

Abbreviation bytes := (list byte).

#[global] Instance byte_eq_dec : EqDecision byte := Byte.byte_eq_dec.
#[global] Instance byte_countable : Countable byte :=
  inj_countable Byte.to_N Byte.of_N Byte.of_to_N.

Abbreviation store := (gmap bytes bytes).

Definition byte_to_Z (c : byte) : Z := Z.of_N (Byte.to_N c).

(** The byte of the low eight bits of [z]. *)
Definition byte_of_Z (z : Z) : byte :=
  match Byte.of_N (Z.to_N (Z.land z 255)) with
  | Some c => c
  | None => x00
  end.

(** [b'\x00' * 32] *)
Definition zero32 : bytes := repeat x00 32.

(** [z.to_bytes(n, 'big')] for [0 <= z < 256^n]. *)
Fixpoint to_bytes_big (n : nat) (z : Z) : bytes :=
  match n with
  | O => []
  | S n' => to_bytes_big n' (z ≫ 8) ++ [byte_of_Z z]
  end.

(** [int.from_bytes(k, 'big')], which is also the loop
    [o = 0; for c in k: o = (o << 8) + c]. *)
Definition from_bytes_big (k : bytes) : Z :=
  fold_left (λ o c, (o ≪ 8) + byte_to_Z c) k 0.

(** Python's truth value of an integer. *)
Definition truthy (z : Z) : bool := negb (z =? 0).

(** ** Exceptions *)

Inductive exn :=
| TypeError        (* [None[..]], [len(None)]: a digest missing from the store *)
| IndexError       (* a list or bytearray index out of range *)
| ValueError       (* a byte outside [range(256)] *)
| SlotException    (* [Exception("Cannot fit two values into one slot!")] *)
| RecursionError.

Inductive result (A : Type) :=
| Ok (a : A)
| Raise (e : exn).
Arguments Ok {A} a.
Arguments Raise {A} e.

#[global] Instance result_ret : MRet result := λ A a, Ok a.
#[global] Instance result_bind : MBind result := λ A B f m,
  match m with
  | Ok a => f a
  | Raise e => Raise e
  end.

(** [o[...]] or [len(o)] on the outcome [o] of [EphemDB.get]: [None] is not
    subscriptable. *)
Definition subscriptable (o : option bytes) : result bytes :=
  match o with
  | Some b => Ok b
  | None => Raise TypeError
  end.

(** [l[i]] on a Python list. *)
Definition index {A} (l : list A) (i : nat) : result A :=
  match l !! i with
  | Some a => Ok a
  | None => Raise IndexError
  end.

(** ** The store: [EphemDB] *)

Definition db_get (db : store) (k : bytes) : option bytes := db !! k.
Definition db_put (db : store) (k v : bytes) : store := <[k := v]> db.
Definition db_delete (db : store) (k : bytes) : store := delete k db.

Section Common.

Variable sha3 : bytes → bytes.

(** [zerohashes = [b'\x00' * 32]] and then 256 times
    [zerohashes.insert(0, sha3(zerohashes[0] + zerohashes[0]))]. *)
Fixpoint zerohashes_upto (n : nat) : list bytes :=
  match n with
  | O => [zero32]
  | S n' =>
      let l := zerohashes_upto n' in
      sha3 (hd [] l ++ hd [] l) :: l
  end.

(** The table after the 256 insertions. Both files build it once, when the
    module is loaded; each engine below binds it once as [zerohashes]. *)
Definition zerohashes_table : list bytes := zerohashes_upto 256.

(** [zerohashes[i]] at an index that the callers keep within [0..256]. *)
Definition zerohash (i : nat) : bytes := nth i zerohashes_table [].

(** [(path >> 255) & 1] as the condition of an [if]. *)
Definition top_bit (path : Z) : bool := truthy (Z.land (path ≫ 255) 1).

End Common.

(** ** The eager engine: [new_bintrie.py] *)

Module Eager.
Section Eager.

Variable sha3 : bytes → bytes.

Let zerohashes : list bytes := zerohashes_table sha3.

Definition new_tree_loop : nat → store → bytes → store * bytes :=
  fix go n db h :=
    match n with
    | O => (db, h)
    | S n' =>
        let newh := sha3 (h ++ h) in
        go n' (db_put db newh (h ++ h)) newh
    end.

Definition new_tree (db : store) : store * bytes :=
  new_tree_loop 256 db zero32.

Definition key_to_path (k : bytes) : Z := from_bytes_big k.

(** [descend(db, root, *path)]: one step per flag of [path]. *)
Fixpoint descend (db : store) (root : bytes) (path : list bool) : result bytes :=
  match path with
  | [] => Ok root
  | p :: path' =>
      child ← subscriptable (db_get db root);
      descend db (if p then drop 32 child else take 32 child) path'
  end.

Fixpoint get_loop (n : nat) (db : store) (v : bytes) (path : Z) : result bytes :=
  match n with
  | O => Ok v
  | S n' =>
      child ← subscriptable (db_get db v);
      let v' := if top_bit path then drop 32 child else take 32 child in
      get_loop n' db v' (path ≪ 1)
  end.

Definition get (db : store) (root key : bytes) : result bytes :=
  get_loop 256 db root (key_to_path key).

(** The first pass of [update], which is also the loop of
    [make_merkle_proof]: the siblings from the root down, appended. *)
Fixpoint sidenodes_loop (n : nat) (db : store) (v : bytes) (path : Z)
    (sidenodes : list bytes) : result (list bytes) :=
  match n with
  | O => Ok sidenodes
  | S n' =>
      child ← subscriptable (db_get db v);
      if top_bit path
      then sidenodes_loop n' db (drop 32 child) (path ≪ 1) (sidenodes ++ [take 32 child])
      else sidenodes_loop n' db (take 32 child) (path ≪ 1) (sidenodes ++ [drop 32 child])
  end.

(** The second pass of [update]: [sidenodes[-1]], then [sidenodes.pop()]. *)
Fixpoint update_loop (n : nat) (db : store) (sidenodes : list bytes)
    (path2 : Z) (v : bytes) : result (store * bytes) :=
  match n with
  | O => Ok (db, v)
  | S n' =>
      s ← index sidenodes (length sidenodes - 1);
      let node := if truthy (Z.land path2 1) then s ++ v else v ++ s in
      let newv := sha3 node in
      update_loop n' (db_put db newv node) (removelast sidenodes) (path2 ≫ 1) newv
  end.

Definition update (db : store) (root key value : bytes) : result (store * bytes) :=
  let path := key_to_path key in
  sidenodes ← sidenodes_loop 256 db root path [];
  update_loop 256 db sidenodes path value.

Definition make_merkle_proof (db : store) (root key : bytes) : result (list bytes) :=
  sidenodes_loop 256 db root (key_to_path key) [].

(** [proof[-1-i]] is [proof[len(proof) - 1 - i]] when [i < len(proof)]. *)
Definition index_from_end {A} (l : list A) (i : nat) : result A :=
  if decide (i < length l)%nat then index l (length l - 1 - i) else Raise IndexError.

Fixpoint verify_loop (n i : nat) (proof : list bytes) (path : Z) (v : bytes)
    : result bytes :=
  match n with
  | O => Ok v
  | S n' =>
      s ← index_from_end proof i;
      let newv := if truthy (Z.land path 1) then sha3 (s ++ v) else sha3 (v ++ s) in
      verify_loop n' (S i) proof (path ≫ 1) newv
  end.

Definition verify_proof (proof : list bytes) (root key value : bytes) : result bool :=
  v ← verify_loop 256 0 proof (key_to_path key) value;
  Ok (bool_decide (root = v)).

(** [bits[i // 8] ^= 1 << i % 8] on a bytearray, whose items are integers. *)
Definition xor_bit (bits : list Z) (i : nat) : result (list Z) :=
  b ← index bits (i / 8);
  Ok (<[(i / 8)%nat := Z.lxor b (1 ≪ Z.of_nat (i mod 8))]> bits).

(** [bytes(bits)] *)
Fixpoint bytes_of_ints (bits : list Z) : result bytes :=
  match bits with
  | [] => Ok []
  | b :: bits' =>
      if decide (0 ≤ b < 256)
      then rest ← bytes_of_ints bits'; Ok (byte_of_Z b :: rest)
      else Raise ValueError
  end.

Fixpoint compress_loop (proof : list bytes) (i : nat) (bits : list Z)
    (oproof : bytes) : result (list Z * bytes) :=
  match proof with
  | [] => Ok (bits, oproof)
  | p :: proof' =>
      z ← index zerohashes (i + 1);
      if bool_decide (p = z)
      then bits' ← xor_bit bits i; compress_loop proof' (S i) bits' oproof
      else compress_loop proof' (S i) bits (oproof ++ p)
  end.

Definition compress_proof (proof : list bytes) : result bytes :=
  '(bits, oproof) ← compress_loop proof 0 (repeat 0 32) [];
  b ← bytes_of_ints bits;
  Ok (b ++ oproof).

Fixpoint decompress_loop (n i : nat) (bits : list Z) (oproof : bytes)
    (pos : nat) (proof : list bytes) : result (list bytes) :=
  match n with
  | O => Ok proof
  | S n' =>
      b ← index bits (i / 8);
      if truthy (Z.land b (1 ≪ Z.of_nat (i mod 8)))
      then decompress_loop n' (S i) bits oproof pos
             (proof ++ [nth (i + 1) zerohashes []])
      else decompress_loop n' (S i) bits oproof (pos + 32)
             (proof ++ [take 32 (drop pos oproof)])
  end.

Definition decompress_proof (oproof : bytes) : result (list bytes) :=
  decompress_loop 256 0 (byte_to_Z <$> take 32 oproof) oproof 32 [].

End Eager.
End Eager.

(** ** The compact engine: [new_bintrie_optimized.py] *)

Module Compact.
Section Compact.

Variable sha3 : bytes → bytes.

Let zerohashes : list bytes := zerohashes_table sha3.

Definition new_tree (db : store) : bytes := nth 0 zerohashes [].

Definition key_to_path (k : bytes) : Z := from_bytes_big k.

Definition tt256m1 : Z := 2 ^ 256 - 1.

Definition path_to_key (k : Z) : bytes := to_bytes_big 32 (Z.land k tt256m1).

Fixpoint get_loop (n i : nat) (db : store) (v : bytes) (path : Z) : result bytes :=
  match n with
  | O => Ok v
  | S n' =>
      if bool_decide (v = nth i zerohashes []) then Ok zero32
      else
        child ← subscriptable (db_get db v);
        if bool_decide (length child = 65%nat) then
          if bool_decide (path mod 2 ^ 256 = key_to_path (take 32 (drop 1 child)))
          then Ok (drop 33 child)
          else Ok zero32
        else
          let v' := if top_bit path then drop 32 child else take 32 child in
          get_loop n' (S i) db v' (path ≪ 1)
  end.

Definition get (db : store) (root key : bytes) : result bytes :=
  get_loop 256 0 db root (key_to_path key).

(** The recursion of [make_single_key_hash] ends at [depth == 256]; [fuel]
    bounds the number of calls, and [256 - depth] of them are enough. *)
Fixpoint make_single_key_hash_rec (fuel : nat) (path : Z) (depth : nat)
    (value : bytes) : bytes :=
  if (depth =? 256)%nat then value
  else
    match fuel with
    | O => value
    | S fuel' =>
        if top_bit path
        then sha3 (nth (depth + 1) zerohashes []
                   ++ make_single_key_hash_rec fuel' (path ≪ 1) (depth + 1) value)
        else sha3 (make_single_key_hash_rec fuel' (path ≪ 1) (depth + 1) value
                   ++ nth (depth + 1) zerohashes [])
    end.

Definition make_single_key_hash (path : Z) (depth : nat) (value : bytes) : bytes :=
  make_single_key_hash_rec (256 - depth) path depth value.

(** [b'\x01' + path_to_key(path) + value] *)
Definition single_leaf_node (path : Z) (value : bytes) : bytes :=
  x01 :: path_to_key path ++ value.

Fixpoint make_double_key_hash_rec (fuel : nat) (db : store) (path1 path2 : Z)
    (depth : nat) (value1 value2 : bytes) : result (store * bytes) :=
  if (depth =? 256)%nat then Raise SlotException
  else
    match fuel with
    | O => Raise RecursionError
    | S fuel' =>
        if top_bit path1 then
          if top_bit path2 then
            '(db, h) ← make_double_key_hash_rec fuel' db (path1 ≪ 1) (path2 ≪ 1)
                         (depth + 1) value1 value2;
            let child := nth (depth + 1) zerohashes [] ++ h in
            Ok (db_put db (sha3 child) child, sha3 child)
          else
            let L := make_single_key_hash (path2 ≪ 1) (depth + 1) value2 in
            let R := make_single_key_hash (path1 ≪ 1) (depth + 1) value1 in
            let db := db_put db L (single_leaf_node (path2 ≪ 1) value2) in
            let db := db_put db R (single_leaf_node (path1 ≪ 1) value1) in
            let child := L ++ R in
            Ok (db_put db (sha3 child) child, sha3 child)
        else
          if top_bit path2 then
            let L := make_single_key_hash (path1 ≪ 1) (depth + 1) value1 in
            let R := make_single_key_hash (path2 ≪ 1) (depth + 1) value2 in
            let db := db_put db L (single_leaf_node (path1 ≪ 1) value1) in
            let db := db_put db R (single_leaf_node (path2 ≪ 1) value2) in
            let child := L ++ R in
            Ok (db_put db (sha3 child) child, sha3 child)
          else
            '(db, h) ← make_double_key_hash_rec fuel' db (path1 ≪ 1) (path2 ≪ 1)
                         (depth + 1) value1 value2;
            let child := h ++ nth (depth + 1) zerohashes [] in
            Ok (db_put db (sha3 child) child, sha3 child)
    end.

Definition make_double_key_hash (db : store) (path1 path2 : Z) (depth : nat)
    (value1 value2 : bytes) : result (store * bytes) :=
  make_double_key_hash_rec (256 - depth) db path1 path2 depth value1 value2.

Fixpoint _update_rec (fuel : nat) (db : store) (root : bytes) (path : Z)
    (depth : nat) (value : bytes) : result (store * bytes) :=
  if (depth =? 256)%nat then Ok (db, value)
  else if bool_decide (root = nth depth zerohashes []) then
    let k := make_single_key_hash path depth value in
    Ok (db_put db k (single_leaf_node path value), k)
  else
    child ← subscriptable (db_get db root);
    if bool_decide (length child = 65%nat) then
      let origpath := key_to_path (take 32 (drop 1 child)) in
      let origvalue := drop 33 child in
      make_double_key_hash db path origpath depth value origvalue
    else
      match fuel with
      | O => Raise RecursionError
      | S fuel' =>
          if top_bit path then
            '(db, h) ← _update_rec fuel' db (drop 32 child) (path ≪ 1) (depth + 1) value;
            let new_child := take 32 child ++ h in
            Ok (db_put db (sha3 new_child) new_child, sha3 new_child)
          else
            '(db, h) ← _update_rec fuel' db (take 32 child) (path ≪ 1) (depth + 1) value;
            let new_child := h ++ drop 32 child in
            Ok (db_put db (sha3 new_child) new_child, sha3 new_child)
      end.

Definition _update (db : store) (root : bytes) (path : Z) (depth : nat)
    (value : bytes) : result (store * bytes) :=
  _update_rec (256 - depth) db root path depth value.

Definition update (db : store) (root key value : bytes) : result (store * bytes) :=
  _update db root (key_to_path key) 0 value.

Fixpoint multi_update (db : store) (root : bytes) (kvs : list (bytes * bytes))
    : result (store * bytes) :=
  match kvs with
  | [] => Ok (db, root)
  | (k, v) :: kvs' =>
      '(db, root) ← update db root k v;
      multi_update db root kvs'
  end.

End Compact.
End Compact.

(** * Auxiliary definitions *)

(** The flags [(path >> 255) & 1] that a loop of [n] rounds reads off [path],
    shifting it left by one each round. *)
Fixpoint path_flags (n : nat) (path : Z) : list bool :=
  match n with
  | O => []
  | S n' => top_bit path :: path_flags n' (path ≪ 1)
  end.

(** The flags [path & 1] read by a loop that shifts [path] right instead. *)
Fixpoint low_flags (n : nat) (path : Z) : list bool :=
  match n with
  | O => []
  | S n' => truthy (Z.land path 1) :: low_flags n' (path ≫ 1)
  end.

(** ** A concrete digest function, to run the engines

    Every definition above takes [sha3] as a parameter. To evaluate the
    engines on concrete trees it is instantiated with a small 64-bit rolling
    hash, padded to 32 bytes. *)

Definition toy_sha3 (x : bytes) : bytes :=
  to_bytes_big 32
    (fold_left (λ h c, Z.land ((h ≪ 5) + h + byte_to_Z c + 1) (2 ^ 64 - 1)) x 5381).

(** The same rolling hash on 63-bit machine integers, to run histories of
    several updates. *)
Definition quick_sha3 (x : bytes) : bytes :=
  let z := fold_left
             (λ h c, Uint63.add (Uint63.add (Uint63.mul h (Uint63.of_Z 33))
                                   (Uint63.of_Z (byte_to_Z c))) (Uint63.of_Z 1))
             x (Uint63.of_Z 5381) in
  repeat x00 24 ++ to_bytes_big 8 (Uint63.to_Z z).

(** The keys [0x00..01], [0x00..02] and the value [0x11..11] of the
    specification's scenario, and a second value. *)
Definition key_01 : bytes := repeat x00 31 ++ [x01].
Definition key_02 : bytes := repeat x00 31 ++ [x02].
Definition value_11 : bytes := repeat x11 32.
Definition value_22 : bytes := repeat x22 32.

(** The outcome of an operation that succeeded, for building test stores. *)
Definition expect {A} (d : A) (r : result A) : A :=
  match r with
  | Ok a => a
  | Raise _ => d
  end.

Definition is_Ok {A} (r : result A) : bool :=
  match r with
  | Ok _ => true
  | Raise _ => false
  end.

(** The compact store and root after [update(db, new_tree(db), 0x00..01, 0x11..11)]. *)
Definition compact_one_leaf : store * bytes :=
  expect (∅, []) (Compact.update toy_sha3 ∅ (Compact.new_tree toy_sha3 ∅) key_01 value_11).

(** A proof of 256 digests whose first entry is the zero hash of its depth. *)
Definition sample_proof : list bytes :=
  zerohash toy_sha3 1 :: repeat value_11 255.

(** ** Proof compression: what the bitmap and the buffer hold *)

(** Bit [j] of a bitmap held as a list of bytes: bit [j % 8] of byte [j // 8]. *)
Definition bit_at (bits : list Z) (j : nat) : bool :=
  Z.testbit (nth (j / 8) bits 0) (Z.of_nat (j mod 8)).

(** The number of entries before [i] whose bit in the bitmap is unset: the
    entries that [decompress_proof] has read off the buffer when it comes to
    entry [i]. *)
Fixpoint kept_before (bits : list Z) (i : nat) : nat :=
  match i with
  | O => 0
  | S i' => kept_before bits i' + (if bit_at bits i' then 0 else 1)
  end.

Section Payload.

Variable sha3 : bytes → bytes.

(** The entries of a proof that [compress_proof] keeps, concatenated; [i] is
    the index of the first entry of [proof]. *)
Fixpoint payload (i : nat) (proof : list bytes) : bytes :=
  match proof with
  | [] => []
  | p :: proof' =>
      (if bool_decide (p = zerohash sha3 (i + 1)) then [] else p)
      ++ payload (S i) proof'
  end.

(** Entry [j] of [proof] is left out by [compress_proof]. *)
Definition elided (proof : list bytes) (j : nat) : bool :=
  match proof !! j with
  | Some p => bool_decide (p = zerohash sha3 (j + 1))
  | None => false
  end.

End Payload.

(** ** The eager engine: paths of nodes

    The loops of the eager engine walk one path of 256 nodes. Their
    properties are stated over the list of flags of the path (the arguments
    of [descend]) and the list of siblings along it. *)

(** [s + v] or [v + s]: the node above [v] with the sibling [s]; [b] tells
    that [v] is the right child. *)
Definition node_of (b : bool) (s v : bytes) : bytes :=
  if b then s ++ v else v ++ s.

(** The siblings met by [descend], from the root down. *)
Fixpoint siblings (db : store) (root : bytes) (path : list bool)
    : result (list bytes) :=
  match path with
  | [] => Ok []
  | p :: path' =>
      child ← subscriptable (db_get db root);
      rest ← siblings db (if p then drop 32 child else take 32 child) path';
      Ok ((if p then take 32 child else drop 32 child) :: rest)
  end.

Section Grafting.

Variable sha3 : bytes → bytes.

(** The root of the path that holds [v] under the flags and siblings [l],
    which are listed from the root down. *)
Fixpoint graft (l : list (bool * bytes)) (v : bytes) : bytes :=
  match l with
  | [] => v
  | (b, s) :: l' => sha3 (node_of b s (graft l' v))
  end.

(** The nodes of that path, from the root down. *)
Fixpoint graft_nodes (l : list (bool * bytes)) (v : bytes) : list bytes :=
  match l with
  | [] => []
  | (b, s) :: l' => node_of b s (graft l' v) :: graft_nodes l' v
  end.

(** The root and the nodes of that path at once, every digest computed
    one time. *)
Fixpoint graft_path (l : list (bool * bytes)) (v : bytes) : bytes * list bytes :=
  match l with
  | [] => (v, [])
  | (b, s) :: l' =>
      let '(h, nodes) := graft_path l' v in
      (sha3 (node_of b s h), node_of b s h :: nodes)
  end.

(** [put] every node of [nodes] under its digest, the last one first. *)
Definition put_nodes (nodes : list bytes) (db : store) : store :=
  foldr (λ c db, db_put db (sha3 c) c) db nodes.

(** The nodes that [update] hashes and puts, from the new root down. *)
Definition eager_update_nodes (db : store) (root key value : bytes) : list bytes :=
  match Eager.make_merkle_proof db root key with
  | Ok sidenodes =>
      (graft_path (zip (path_flags 256 (Eager.key_to_path key)) sidenodes) value).2
  | Raise _ => []
  end.

(** The nodes that the eager [new_tree] puts, from the root down. *)
Definition zero_nodes : list bytes :=
  (λ h, h ++ h) <$> tail (zerohashes_table sha3).

(** [sha3] maps no two byte strings of [P] to one digest. *)
Definition collision_free (P : bytes → Prop) : Prop :=
  ∀ x y, P x → P y → sha3 x = sha3 y → x = y.

(** Some digest of the store holds the bytes [c]. *)
Definition stored (db : store) (c : bytes) : Prop := ∃ h, db !! h = Some c.

(** Every entry is a 64-byte node under its own digest. *)
Definition wf_store (db : store) : Prop :=
  ∀ h c, db !! h = Some c → h = sha3 c ∧ length c = 64%nat.

(** [h] is the root of a full subtree of height [n] held by the store. *)
Fixpoint closed (n : nat) (db : store) (h : bytes) : Prop :=
  match n with
  | O => length h = 32%nat
  | S n' =>
      ∃ c, db !! h = Some c ∧ length c = 64%nat
           ∧ closed n' db (take 32 c) ∧ closed n' db (drop 32 c)
  end.

(** The value that a history of updates, the latest first, gives a key. *)
Fixpoint latest (history : list (bytes * bytes)) (key : bytes) : bytes :=
  match history with
  | [] => zero32
  | (k, v) :: history' => if decide (k = key) then v else latest history' key
  end.

(** The trees of the eager engine: [new_tree] on an empty store, then
    updates of 32-byte keys with 32-byte values, as long as [sha3] has no
    collision among the nodes stored and written. The history lists the
    updates, the latest first. *)
Inductive eager_run : list (bytes * bytes) → store → bytes → Prop :=
| eager_run_new :
    collision_free (λ c, c ∈ zero_nodes) →
    eager_run [] (Eager.new_tree sha3 ∅).1 (Eager.new_tree sha3 ∅).2
| eager_run_update history db root key value db' root' :
    eager_run history db root →
    length key = 32%nat → length value = 32%nat →
    collision_free (λ c, stored db c ∨ c ∈ eager_update_nodes db root key value) →
    Eager.update sha3 db root key value = Ok (db', root') →
    eager_run ((key, value) :: history) db' root'.

End Grafting.

(** ** Replaying a history of the eager engine *)

Section EagerReplay.

Variable sha3 : bytes → bytes.

(** The check of [collision_free] on the byte strings of a list: [seen]
    maps the digests met so far to the byte string that gave them. *)
Fixpoint collision_free_from (l : list bytes) (seen : store) : bool :=
  match l with
  | [] => true
  | x :: l' =>
      let h := sha3 x in
      match seen !! h with
      | Some y => bool_decide (x = y) && collision_free_from l' seen
      | None => collision_free_from l' (<[h := x]> seen)
      end
  end.

Definition collision_freeb (l : list bytes) : bool := collision_free_from l ∅.

(** Runs a history, the latest update first, from the empty tree; it
    returns the store, the root and every node put on the way. *)
Fixpoint eager_replay (history : list (bytes * bytes))
    : result (store * bytes * list bytes) :=
  match history with
  | [] =>
      let new := Eager.new_tree sha3 ∅ in
      Ok (new.1, new.2, zero_nodes sha3)
  | (key, value) :: history' =>
      '(db, root, nodes) ← eager_replay history';
      '(db', root') ← Eager.update sha3 db root key value;
      Ok (db', root', eager_update_nodes sha3 db root key value ++ nodes)
  end.

End EagerReplay.

(** The eager tree after [update(db, new_tree(db), 0x00..01, 0x11..11)],
    with the nodes put so far. *)
Definition eager_one_leaf : store * bytes * list bytes :=
  expect (∅, [], []) (eager_replay toy_sha3 [(key_01, value_11)]).

(** ** The compact engine: the entries an update puts

    [make_double_key_hash] and [_update] read the store on the way down and
    put on the way up. The functions below follow the same recursion and
    return the list of the puts, in the order of the calls of [db.put], each
    with the depth of the subtree that the entry stands for, and the digest
    returned. *)

Definition write : Type := nat * bytes * bytes.

Definition write_depth (w : write) : nat := w.1.1.
Definition write_digest (w : write) : bytes := w.1.2.
Definition write_node (w : write) : bytes := w.2.

(** The store after the puts of [W], the first of the list first. *)
Definition put_all (W : list write) (db : store) : store :=
  fold_left (λ db w, db_put db (write_digest w) (write_node w)) W db.

Section CompactTrace.

Variable sha3 : bytes → bytes.

Let zerohashes : list bytes := zerohashes_table sha3.

Fixpoint mdkh_trace (fuel : nat) (path1 path2 : Z) (depth : nat)
    (value1 value2 : bytes) : result (list write * bytes) :=
  if (depth =? 256)%nat then Raise SlotException
  else
    match fuel with
    | O => Raise RecursionError
    | S fuel' =>
        if top_bit path1 then
          if top_bit path2 then
            '(W, h) ← mdkh_trace fuel' (path1 ≪ 1) (path2 ≪ 1) (depth + 1) value1 value2;
            let child := nth (depth + 1) zerohashes [] ++ h in
            Ok (W ++ [(depth, sha3 child, child)], sha3 child)
          else
            let L := Compact.make_single_key_hash sha3 (path2 ≪ 1) (depth + 1) value2 in
            let R := Compact.make_single_key_hash sha3 (path1 ≪ 1) (depth + 1) value1 in
            let child := L ++ R in
            Ok ([((depth + 1)%nat, L, Compact.single_leaf_node (path2 ≪ 1) value2);
                 ((depth + 1)%nat, R, Compact.single_leaf_node (path1 ≪ 1) value1);
                 (depth, sha3 child, child)], sha3 child)
        else
          if top_bit path2 then
            let L := Compact.make_single_key_hash sha3 (path1 ≪ 1) (depth + 1) value1 in
            let R := Compact.make_single_key_hash sha3 (path2 ≪ 1) (depth + 1) value2 in
            let child := L ++ R in
            Ok ([((depth + 1)%nat, L, Compact.single_leaf_node (path1 ≪ 1) value1);
                 ((depth + 1)%nat, R, Compact.single_leaf_node (path2 ≪ 1) value2);
                 (depth, sha3 child, child)], sha3 child)
          else
            '(W, h) ← mdkh_trace fuel' (path1 ≪ 1) (path2 ≪ 1) (depth + 1) value1 value2;
            let child := h ++ nth (depth + 1) zerohashes [] in
            Ok (W ++ [(depth, sha3 child, child)], sha3 child)
    end.

Fixpoint update_trace (fuel : nat) (db : store) (root : bytes) (path : Z)
    (depth : nat) (value : bytes) : result (list write * bytes) :=
  if (depth =? 256)%nat then Ok ([], value)
  else if bool_decide (root = nth depth zerohashes []) then
    let k := Compact.make_single_key_hash sha3 path depth value in
    Ok ([(depth, k, Compact.single_leaf_node path value)], k)
  else
    child ← subscriptable (db_get db root);
    if bool_decide (length child = 65%nat) then
      let origpath := Compact.key_to_path (take 32 (drop 1 child)) in
      let origvalue := drop 33 child in
      mdkh_trace (256 - depth) path origpath depth value origvalue
    else
      match fuel with
      | O => Raise RecursionError
      | S fuel' =>
          if top_bit path then
            '(W, h) ← update_trace fuel' db (drop 32 child) (path ≪ 1) (depth + 1) value;
            let new_child := take 32 child ++ h in
            Ok (W ++ [(depth, sha3 new_child, new_child)], sha3 new_child)
          else
            '(W, h) ← update_trace fuel' db (take 32 child) (path ≪ 1) (depth + 1) value;
            let new_child := h ++ drop 32 child in
            Ok (W ++ [(depth, sha3 new_child, new_child)], sha3 new_child)
      end.

(** The puts of [update(db, root, key, value)]. *)
Definition compact_update_writes (db : store) (root key value : bytes) : list write :=
  match update_trace 256 db root (Compact.key_to_path key) 0 value with
  | Ok (W, _) => W
  | Raise _ => []
  end.

(** A put under the zero hash of its depth is the put of an empty subtree:
    a single-leaf node that holds the zero value, or the node of two empty
    subtrees. *)
Definition zero_safe (w : write) : Prop :=
  (write_depth w < 256)%nat →
  write_digest w = zerohash sha3 (write_depth w) →
  (length (write_node w) = 65%nat ∧ drop 33 (write_node w) = zero32)
  ∨ write_node w = zerohash sha3 (S (write_depth w)) ++ zerohash sha3 (S (write_depth w)).

(** The puts of [W] on the store [db] give no digest two different nodes,
    and none of them takes the zero hash of its depth for a subtree that
    is not empty. *)
Definition sound_writes (db : store) (W : list write) : Prop :=
  (∀ w c, w ∈ W → db !! write_digest w = Some c → c = write_node w)
  ∧ (∀ w w', w ∈ W → w' ∈ W → write_digest w = write_digest w' →
             write_node w = write_node w')
  ∧ Forall zero_safe W.

(** [q] is a path shifted left [d] times and cut to 256 bits. *)
Definition aligned (d : nat) (q : Z) : Prop :=
  0 ≤ q < 2 ^ 256 ∧ q mod 2 ^ Z.of_nat d = 0.

(** [crep db d h t]: in the store [db], the digest [h] met at depth [d]
    stands for the subtree that gives the shifted path [q] the value [t q]. *)
Inductive crep (db : store) : nat → bytes → (Z → bytes) → Prop :=
| crep_leaf v t :
    length v = 32%nat →
    (∀ q, aligned 256 q → t q = v) →
    crep db 256 v t
| crep_zero d t :
    (d < 256)%nat →
    (∀ q, aligned d q → t q = zero32) →
    crep db d (zerohash sha3 d) t
| crep_single d h c t :
    (d < 256)%nat → h ≠ zerohash sha3 d →
    db !! h = Some c → length c = 65%nat →
    aligned d (Compact.key_to_path (take 32 (drop 1 c))) →
    (∀ q, aligned d q →
          t q = if bool_decide (q = Compact.key_to_path (take 32 (drop 1 c)))
                then drop 33 c else zero32) →
    crep db d h t
| crep_node d h c tl tr t :
    (d < 256)%nat → h ≠ zerohash sha3 d →
    db !! h = Some c → length c = 64%nat →
    crep db (S d) (take 32 c) tl →
    crep db (S d) (drop 32 c) tr →
    (∀ q, aligned d q →
          t q = (if top_bit q then tr else tl) ((q ≪ 1) mod 2 ^ 256)) →
    crep db d h t.

(** The trees of the compact engine: the empty root on an empty store, then
    updates of 32-byte keys with 32-byte values that return and whose puts
    are sound. The history lists the updates, the latest first. *)
Inductive compact_run : list (bytes * bytes) → store → bytes → Prop :=
| compact_run_new : compact_run [] ∅ (Compact.new_tree sha3 ∅)
| compact_run_update history db root key value db' root' :
    compact_run history db root →
    length key = 32%nat → length value = 32%nat →
    sound_writes db (compact_update_writes db root key value) →
    Compact.update sha3 db root key value = Ok (db', root') →
    compact_run ((key, value) :: history) db' root'.

End CompactTrace.

(** ** Replaying a history of the compact engine *)

Section CompactReplay.

Variable sha3 : bytes → bytes.

Let zerohashes : list bytes := zerohashes_table sha3.

(** The check of [zero_safe]. *)
Definition zero_safeb (w : write) : bool :=
  if (write_depth w <? 256)%nat
     && bool_decide (write_digest w = nth (write_depth w) zerohashes [])
  then bool_decide (length (write_node w) = 65%nat)
       && bool_decide (drop 33 (write_node w) = zero32)
       || bool_decide (write_node w = nth (S (write_depth w)) zerohashes []
                                      ++ nth (S (write_depth w)) zerohashes [])
  else true.

(** Every put of [W] finds its digest free, or holding the node it puts. *)
Fixpoint fresh_writesb (W : list write) (db : store) : bool :=
  match W with
  | [] => true
  | w :: W' =>
      match db !! write_digest w with
      | Some c => bool_decide (c = write_node w) && fresh_writesb W' db
      | None => fresh_writesb W' (<[write_digest w := write_node w]> db)
      end
  end.

(** The check of [sound_writes]. *)
Definition sound_writesb (db : store) (W : list write) : bool :=
  fresh_writesb W db && forallb zero_safeb W.

(** Runs a history, the latest update first, from the empty tree, as long as
    the updates return and their puts are sound. *)
Fixpoint compact_replay (history : list (bytes * bytes)) : option (store * bytes) :=
  match history with
  | [] => Some (∅, Compact.new_tree sha3 ∅)
  | (key, value) :: history' =>
      match compact_replay history' with
      | Some (db, root) =>
          if sound_writesb db (compact_update_writes sha3 db root key value)
          then match Compact.update sha3 db root key value with
               | Ok r => Some r
               | Raise _ => None
               end
          else None
      | None => None
      end
  end.

End CompactReplay.

(** ** Concrete trees *)

Definition key_00 : bytes := repeat x00 32.
Definition key_80 : bytes := x80 :: repeat x00 31.

(** [r] is the value [v]. *)
Definition gives (r : result bytes) (v : bytes) : bool :=
  match r with
  | Ok x => bool_decide (x = v)
  | Raise _ => false
  end.

(** The compact tree of a replayed history. *)
Definition compact_tree (history : list (bytes * bytes)) : store * bytes :=
  default (∅, []) (compact_replay quick_sha3 history).

(** The eager tree of a replayed history, with the nodes put so far. *)
Definition eager_tree (history : list (bytes * bytes)) : store * bytes * list bytes :=
  expect (∅, [], []) (eager_replay quick_sha3 history).

(** The histories of the examples, the latest update first. *)
Definition one_leaf : list (bytes * bytes) := [(key_01, value_11)].
Definition two_leaves : list (bytes * bytes) := [(key_02, value_22); (key_01, value_11)].

(** The digest that the compact engine gives the single-leaf subtree of
    [0x80..00 -> 0x11..11] at depth 1. *)
Definition right_digest : bytes :=
  Compact.make_single_key_hash quick_sha3 (Compact.key_to_path key_80 ≪ 1) 1 value_11.

(** The keys [0x80..00] and [0x00..00] are set; then [0x00..01], whose path
    leaves that of [0x00..00] at the last bit only, is given the digest of
    the right subtree as its value. *)
Definition left_right : list (bytes * bytes) := [(key_00, value_22); (key_80, value_11)].
Definition clobbering : list (bytes * bytes) := (key_01, right_digest) :: left_right.

(** * Properties *)

(** ** The [result] monad *)

Lemma bind_Ok_inv {A B} (f : A → result B) (m : result A) b :
  mbind f m = Ok b → ∃ a, m = Ok a ∧ f a = Ok b.
Proof. destruct m as [a|e]; [|discriminate]. intros H. now exists a. Qed.

Lemma bind_Ok {A B} (f : A → result B) (a : A) : mbind f (Ok a) = f a.
Proof. reflexivity. Qed.

Lemma bind_Raise {A B} (f : A → result B) (e : exn) : mbind f (Raise e) = Raise e.
Proof. reflexivity. Qed.

(** ** Bytes and integers *)

Lemma byte_to_Z_range c : 0 ≤ byte_to_Z c < 256.
Proof.
  unfold byte_to_Z. pose proof (Byte.to_N_bounded c). lia.
Qed.

Lemma land_255 z : Z.land z 255 = z mod 256.
Proof. change 255 with (Z.ones 8). now rewrite Z.land_ones by lia. Qed.

Lemma byte_to_of_Z z : byte_to_Z (byte_of_Z z) = z mod 256.
Proof.
  unfold byte_of_Z, byte_to_Z. rewrite land_255.
  pose proof (Z.mod_pos_bound z 256 ltac:(lia)) as Hr.
  destruct (Byte.of_N (Z.to_N (z mod 256))) as [c|] eqn:E.
  - apply Byte.to_of_N in E. rewrite E. lia.
  - apply Byte.of_N_None_iff in E. lia.
Qed.

Lemma byte_of_to_Z c : byte_of_Z (byte_to_Z c) = c.
Proof.
  unfold byte_of_Z. rewrite land_255.
  rewrite Z.mod_small by apply byte_to_Z_range.
  unfold byte_to_Z. rewrite N2Z.id. now rewrite Byte.of_to_N.
Qed.

Lemma byte_of_Z_mod z : byte_of_Z (z mod 256) = byte_of_Z z.
Proof.
  unfold byte_of_Z. rewrite !land_255. now rewrite Z.mod_mod by lia.
Qed.

Lemma from_bytes_big_snoc k c :
  from_bytes_big (k ++ [c]) = from_bytes_big k * 256 + byte_to_Z c.
Proof.
  unfold from_bytes_big. rewrite fold_left_app. simpl.
  now rewrite Z.shiftl_mul_pow2 by lia.
Qed.

Lemma from_bytes_big_range k :
  0 ≤ from_bytes_big k < 2 ^ (8 * Z.of_nat (length k)).
Proof.
  induction k as [|c k IH] using rev_ind.
  - simpl. unfold from_bytes_big. simpl. lia.
  - rewrite from_bytes_big_snoc, length_app. simpl length.
    replace (8 * Z.of_nat (length k + 1)) with (8 * Z.of_nat (length k) + 8) by lia.
    rewrite Z.pow_add_r by lia. pose proof (byte_to_Z_range c). lia.
Qed.

Lemma length_to_bytes_big n z : length (to_bytes_big n z) = n.
Proof.
  revert z. induction n as [|n IH]; intros z; simpl; [done|].
  rewrite length_app, IH. simpl. lia.
Qed.

(** [int.from_bytes(z.to_bytes(n, 'big'), 'big')] keeps the low [8 n] bits. *)
Lemma from_to_bytes_big n z :
  from_bytes_big (to_bytes_big n z) = z mod 2 ^ (8 * Z.of_nat n).
Proof.
  revert z. induction n as [|n IH]; intros z.
  - simpl. unfold from_bytes_big. simpl. now rewrite Z.mod_1_r.
  - cbn [to_bytes_big]. rewrite from_bytes_big_snoc, IH, byte_to_of_Z.
    rewrite Z.shiftr_div_pow2 by lia.
    replace (8 * Z.of_nat (S n)) with (8 + 8 * Z.of_nat n) by lia.
    rewrite Z.pow_add_r by lia. change (2 ^ 8) with 256.
    rewrite (Z.rem_mul_r z 256 (2 ^ (8 * Z.of_nat n))) by lia. lia.
Qed.

Lemma to_from_bytes_big k : to_bytes_big (length k) (from_bytes_big k) = k.
Proof.
  induction k as [|c k IH] using rev_ind; [done|].
  rewrite length_app. simpl length. rewrite Nat.add_1_r. cbn [to_bytes_big].
  rewrite from_bytes_big_snoc. pose proof (byte_to_Z_range c) as Hc.
  rewrite Z.shiftr_div_pow2 by lia. change (2 ^ 8) with 256.
  replace ((from_bytes_big k * 256 + byte_to_Z c) / 256) with (from_bytes_big k)
    by (apply Z.div_unique with (r := byte_to_Z c); lia).
  rewrite IH. f_equal. f_equal.
  rewrite <- byte_of_Z_mod.
  replace ((from_bytes_big k * 256 + byte_to_Z c) mod 256) with (byte_to_Z c)
    by (apply Z.mod_unique with (q := from_bytes_big k); lia).
  apply byte_of_to_Z.
Qed.

(** Two byte strings of one length that encode the same integer are equal. *)
Lemma from_bytes_big_inj k1 k2 :
  length k1 = length k2 → from_bytes_big k1 = from_bytes_big k2 → k1 = k2.
Proof.
  intros Hl He. rewrite <- (to_from_bytes_big k1), <- (to_from_bytes_big k2).
  now rewrite Hl, He.
Qed.

(** ** Path flags *)

Lemma truthy_land_1 a : truthy (Z.land a 1) = Z.testbit a 0.
Proof.
  unfold truthy. change 1 with (Z.ones 1) at 1. rewrite Z.land_ones by lia.
  change (2 ^ 1) with 2. rewrite <- Z.bit0_mod.
  now destruct (Z.testbit a 0).
Qed.

Lemma top_bit_testbit p : top_bit p = Z.testbit p 255.
Proof.
  unfold top_bit. rewrite truthy_land_1, Z.shiftr_spec by lia. done.
Qed.

Lemma path_flags_nth n p i :
  (i < n)%nat → path_flags n p !! i = Some (Z.testbit p (255 - Z.of_nat i)).
Proof.
  revert p i. induction n as [|n IH]; intros p i Hi; [lia|].
  destruct i as [|i]; cbn [path_flags].
  - cbn [lookup list_lookup]. now rewrite top_bit_testbit.
  - rewrite lookup_cons_ne_0 by lia. cbn [Nat.pred]. rewrite IH by lia. f_equal.
    destruct (decide (Z.of_nat i ≤ 255)).
    + rewrite Z.shiftl_spec by lia. f_equal. lia.
    + rewrite !Z.testbit_neg_r by lia. done.
Qed.

Lemma length_path_flags n p : length (path_flags n p) = n.
Proof. revert p. induction n; intros; simpl; auto. Qed.

Lemma low_flags_nth n p i :
  (i < n)%nat → low_flags n p !! i = Some (Z.testbit p (Z.of_nat i)).
Proof.
  revert p i. induction n as [|n IH]; intros p i Hi; [lia|].
  destruct i as [|i]; cbn [low_flags].
  - cbn [lookup list_lookup]. now rewrite truthy_land_1.
  - rewrite lookup_cons_ne_0 by lia. cbn [Nat.pred]. rewrite IH by lia. f_equal.
    rewrite Z.shiftr_spec by lia. f_equal. lia.
Qed.

Lemma length_low_flags n p : length (low_flags n p) = n.
Proof. revert p. induction n; intros; simpl; auto. Qed.

(** Shifting right and testing the low bit reads the 256 flags of a path in
    the opposite order of shifting left and testing bit 255. *)
Lemma low_flags_reverse p : low_flags 256 p = reverse (path_flags 256 p).
Proof.
  apply list_eq. intros i.
  destruct (decide (i < 256)%nat) as [Hi|Hi].
  - rewrite low_flags_nth by done.
    rewrite reverse_lookup by (rewrite length_path_flags; lia).
    rewrite length_path_flags, path_flags_nth by lia.
    f_equal. f_equal. lia.
  - rewrite !lookup_ge_None_2; [done| |].
    + rewrite length_reverse, length_path_flags. lia.
    + rewrite length_low_flags. lia.
Qed.

(** ** The zero-hash table *)

Section ZeroHashes.

Variable sha3 : bytes → bytes.

(** The root digest of an all-zero subtree of height [n]. *)
Definition zero_digest (n : nat) : bytes :=
  Nat.iter n (λ h, sha3 (h ++ h)) zero32.

Lemma zero_digest_0 : zero_digest 0 = zero32.
Proof. reflexivity. Qed.

Lemma zero_digest_S n :
  zero_digest (S n) = sha3 (zero_digest n ++ zero_digest n).
Proof. reflexivity. Qed.

Lemma hd_zerohashes_upto n : hd [] (zerohashes_upto sha3 n) = zero_digest n.
Proof.
  induction n as [|n IH]; [done|]. cbn [zerohashes_upto hd]. now rewrite IH.
Qed.

Lemma zerohashes_upto_digests n :
  zerohashes_upto sha3 n = zero_digest <$> reverse (seq 0 (S n)).
Proof.
  induction n as [|n IH]; [done|].
  cbn [zerohashes_upto]. rewrite hd_zerohashes_upto, IH, <- zero_digest_S.
  now rewrite (seq_S (S n)), reverse_app.
Qed.

(** The table lists the zero digests of the heights 256 down to 0. *)
Lemma zerohashes_table_digests :
  zerohashes_table sha3 = zero_digest <$> reverse (seq 0 257).
Proof. apply zerohashes_upto_digests. Qed.

Lemma length_zerohashes_upto n : length (zerohashes_upto sha3 n) = S n.
Proof. induction n as [|n IH]; [done|]. cbn [zerohashes_upto length]. now rewrite IH. Qed.

Lemma nth_zerohashes_upto n d :
  (d ≤ n)%nat → nth d (zerohashes_upto sha3 n) [] = zero_digest (n - d).
Proof.
  revert d. induction n as [|n IH]; intros d Hd.
  - replace d with 0%nat by lia. reflexivity.
  - destruct d as [|d].
    + rewrite Nat.sub_0_r, <- hd_zerohashes_upto. reflexivity.
    + cbn [zerohashes_upto nth]. rewrite IH by lia. reflexivity.
Qed.

Lemma zerohash_digest d : (d ≤ 256)%nat → zerohash sha3 d = zero_digest (256 - d).
Proof. intros Hd. unfold zerohash, zerohashes_table. now apply nth_zerohashes_upto. Qed.

Lemma zerohash_256 : zerohash sha3 256 = zero32.
Proof. now rewrite zerohash_digest by lia. Qed.

(** [zerohashes[d] = sha3(zerohashes[d+1] + zerohashes[d+1])] below depth 256. *)
Lemma zerohash_succ d :
  (d < 256)%nat →
  zerohash sha3 d = sha3 (zerohash sha3 (S d) ++ zerohash sha3 (S d)).
Proof.
  intros Hd. rewrite !zerohash_digest by lia.
  replace (256 - d)%nat with (S (256 - S d)) by lia. done.
Qed.

Lemma length_zerohashes_table : length (zerohashes_table sha3) = 257%nat.
Proof. apply length_zerohashes_upto. Qed.

Lemma index_zerohashes d :
  (d ≤ 256)%nat → index (zerohashes_table sha3) d = Ok (zerohash sha3 d).
Proof.
  intros Hd. unfold index, zerohash.
  destruct (zerohashes_table sha3 !! d) as [z|] eqn:E.
  - now rewrite (nth_lookup_Some _ _ _ _ E).
  - apply lookup_ge_None_1 in E. rewrite length_zerohashes_table in E. lia.
Qed.

Lemma length_zero32 : length zero32 = 32%nat.
Proof. done. Qed.

Lemma length_zerohash d :
  (∀ x, length (sha3 x) = 32%nat) → (d ≤ 256)%nat → length (zerohash sha3 d) = 32%nat.
Proof.
  intros Hlen Hd. rewrite zerohash_digest by done.
  destruct (256 - d)%nat; [done|]. cbn [zero_digest Nat.iter]. apply Hlen.
Qed.

End ZeroHashes.

(** The table is never unfolded by the proofs below: its 257 entries are
    only reached through the lemmas above. *)
#[global] Opaque zerohashes_table zero_digest.

(** ** Empty trees *)

Section NewTree.

Variable sha3 : bytes → bytes.

Lemma fold_left_ext_in {A B} (f g : A → B → A) l a :
  (∀ x b, b ∈ l → f x b = g x b) → fold_left f l a = fold_left g l a.
Proof.
  revert a. induction l as [|b l IH]; intros a H; [done|].
  cbn [fold_left]. rewrite H by left. apply IH. intros. apply H. now right.
Qed.

Lemma new_tree_loop_spec n m db :
  Eager.new_tree_loop sha3 n db (zero_digest sha3 m) =
  (fold_left (λ db j, db_put db (zero_digest sha3 (S j))
                        (zero_digest sha3 j ++ zero_digest sha3 j))
     (seq m n) db,
   zero_digest sha3 (m + n)).
Proof.
  revert m db. induction n as [|n IH]; intros m db.
  - cbn. now rewrite Nat.add_0_r.
  - cbn [Eager.new_tree_loop seq fold_left].
    rewrite <- zero_digest_S, IH. now rewrite Nat.add_succ_r.
Qed.

(** C9. [new_tree] of the eager engine puts, for the depths 255 down to 0,
    the node [zerohashes[d+1] + zerohashes[d+1]] under [zerohashes[d]] and
    returns [zerohashes[0]]; [new_tree] of the compact engine returns
    [zerohashes[0]] as well. *)
Theorem new_tree_zerohash (db : store) :
  Eager.new_tree sha3 db =
    (fold_left (λ db j, db_put db (zerohash sha3 (255 - j))
                          (zerohash sha3 (256 - j) ++ zerohash sha3 (256 - j)))
       (seq 0 256) db,
     zerohash sha3 0)
  ∧ Compact.new_tree sha3 db = zerohash sha3 0.
Proof.
  split; [|unfold Compact.new_tree, zerohash; cbv zeta; reflexivity].
  unfold Eager.new_tree. rewrite <- (zero_digest_0 sha3).
  rewrite new_tree_loop_spec.
  rewrite (zerohash_digest sha3 0) by lia.
  rewrite (fold_left_ext_in
             (λ db j, db_put db (zerohash sha3 (255 - j))
                        (zerohash sha3 (256 - j) ++ zerohash sha3 (256 - j)))
             (λ db j, db_put db (zero_digest sha3 (S j))
                        (zero_digest sha3 j ++ zero_digest sha3 j))).
  - reflexivity.
  - intros x j Hj. apply elem_of_seq in Hj.
    rewrite !zerohash_digest by lia.
    replace (256 - (255 - j))%nat with (S j) by lia.
    replace (256 - (256 - j))%nat with j by lia. reflexivity.
Qed.

End NewTree.

(** ** The compact engine: unfolding equations *)

Section CompactEquations.

Variable sha3 : bytes → bytes.

Local Abbreviation zh := (zerohash sha3).
Local Abbreviation msk := (Compact.make_single_key_hash sha3).
Local Abbreviation mdkh := (Compact.make_double_key_hash sha3).

Lemma compact_get_loop_S n i db v path :
  Compact.get_loop sha3 (S n) i db v path =
  if bool_decide (v = zh i) then Ok zero32
  else
    child ← subscriptable (db_get db v);
    if bool_decide (length child = 65%nat) then
      if bool_decide (path mod 2 ^ 256 = Compact.key_to_path (take 32 (drop 1 child)))
      then Ok (drop 33 child)
      else Ok zero32
    else
      Compact.get_loop sha3 n (S i) db
        (if top_bit path then drop 32 child else take 32 child) (path ≪ 1).
Proof. reflexivity. Qed.

Lemma msk_256 path value : msk path 256 value = value.
Proof. reflexivity. Qed.

Lemma msk_step path d value :
  (d < 256)%nat →
  msk path d value =
  if top_bit path
  then sha3 (zh (d + 1) ++ msk (path ≪ 1) (d + 1) value)
  else sha3 (msk (path ≪ 1) (d + 1) value ++ zh (d + 1)).
Proof.
  intros Hd. unfold Compact.make_single_key_hash.
  replace (256 - d)%nat with (S (256 - (d + 1))) by lia.
  change (Compact.make_single_key_hash_rec sha3 (S (256 - (d + 1))) path d value)
    with (if (d =? 256)%nat then value
          else if top_bit path
          then sha3 (zh (d + 1) ++ Compact.make_single_key_hash_rec sha3
                       (256 - (d + 1)) (path ≪ 1) (d + 1) value)
          else sha3 (Compact.make_single_key_hash_rec sha3
                       (256 - (d + 1)) (path ≪ 1) (d + 1) value ++ zh (d + 1))).
  destruct (Nat.eqb_spec d 256); [lia|]. done.
Qed.

Lemma mdkh_256 db p1 p2 v1 v2 : mdkh db p1 p2 256 v1 v2 = Raise SlotException.
Proof. reflexivity. Qed.

Lemma mdkh_rec_S fuel db p1 p2 d v1 v2 :
  Compact.make_double_key_hash_rec sha3 (S fuel) db p1 p2 d v1 v2 =
  if (d =? 256)%nat then Raise SlotException
  else if top_bit p1 then
    if top_bit p2 then
      '(db, h) ← Compact.make_double_key_hash_rec sha3 fuel db (p1 ≪ 1) (p2 ≪ 1)
                   (d + 1) v1 v2;
      let child := zh (d + 1) ++ h in
      Ok (db_put db (sha3 child) child, sha3 child)
    else
      let L := msk (p2 ≪ 1) (d + 1) v2 in
      let R := msk (p1 ≪ 1) (d + 1) v1 in
      let db := db_put db L (Compact.single_leaf_node (p2 ≪ 1) v2) in
      let db := db_put db R (Compact.single_leaf_node (p1 ≪ 1) v1) in
      let child := L ++ R in
      Ok (db_put db (sha3 child) child, sha3 child)
  else
    if top_bit p2 then
      let L := msk (p1 ≪ 1) (d + 1) v1 in
      let R := msk (p2 ≪ 1) (d + 1) v2 in
      let db := db_put db L (Compact.single_leaf_node (p1 ≪ 1) v1) in
      let db := db_put db R (Compact.single_leaf_node (p2 ≪ 1) v2) in
      let child := L ++ R in
      Ok (db_put db (sha3 child) child, sha3 child)
    else
      '(db, h) ← Compact.make_double_key_hash_rec sha3 fuel db (p1 ≪ 1) (p2 ≪ 1)
                   (d + 1) v1 v2;
      let child := h ++ zh (d + 1) in
      Ok (db_put db (sha3 child) child, sha3 child).
Proof. reflexivity. Qed.

Lemma mdkh_step db p1 p2 d v1 v2 :
  (d < 256)%nat →
  mdkh db p1 p2 d v1 v2 =
  if top_bit p1 then
    if top_bit p2 then
      '(db, h) ← mdkh db (p1 ≪ 1) (p2 ≪ 1) (d + 1) v1 v2;
      let child := zh (d + 1) ++ h in
      Ok (db_put db (sha3 child) child, sha3 child)
    else
      let L := msk (p2 ≪ 1) (d + 1) v2 in
      let R := msk (p1 ≪ 1) (d + 1) v1 in
      let db := db_put db L (Compact.single_leaf_node (p2 ≪ 1) v2) in
      let db := db_put db R (Compact.single_leaf_node (p1 ≪ 1) v1) in
      let child := L ++ R in
      Ok (db_put db (sha3 child) child, sha3 child)
  else
    if top_bit p2 then
      let L := msk (p1 ≪ 1) (d + 1) v1 in
      let R := msk (p2 ≪ 1) (d + 1) v2 in
      let db := db_put db L (Compact.single_leaf_node (p1 ≪ 1) v1) in
      let db := db_put db R (Compact.single_leaf_node (p2 ≪ 1) v2) in
      let child := L ++ R in
      Ok (db_put db (sha3 child) child, sha3 child)
    else
      '(db, h) ← mdkh db (p1 ≪ 1) (p2 ≪ 1) (d + 1) v1 v2;
      let child := h ++ zh (d + 1) in
      Ok (db_put db (sha3 child) child, sha3 child).
Proof.
  intros Hd. unfold Compact.make_double_key_hash.
  replace (256 - d)%nat with (S (256 - (d + 1))) by lia.
  rewrite mdkh_rec_S.
  destruct (Nat.eqb_spec d 256) as [|Hne]; [lia|]. reflexivity.
Qed.

End CompactEquations.

Section CompactUpdateEquations.

Variable sha3 : bytes → bytes.

Local Abbreviation zh := (zerohash sha3).
Local Abbreviation msk := (Compact.make_single_key_hash sha3).
Local Abbreviation mdkh := (Compact.make_double_key_hash sha3).
Local Abbreviation _update := (Compact._update sha3).

Lemma _update_256 db root path value : _update db root path 256 value = Ok (db, value).
Proof. reflexivity. Qed.

Lemma _update_rec_S fuel db root path d value :
  Compact._update_rec sha3 (S fuel) db root path d value =
  if (d =? 256)%nat then Ok (db, value)
  else if bool_decide (root = zh d) then
    Ok (db_put db (msk path d value) (Compact.single_leaf_node path value),
        msk path d value)
  else
    child ← subscriptable (db_get db root);
    if bool_decide (length child = 65%nat) then
      mdkh db path (Compact.key_to_path (take 32 (drop 1 child))) d value (drop 33 child)
    else if top_bit path then
      '(db, h) ← Compact._update_rec sha3 fuel db (drop 32 child) (path ≪ 1) (d + 1) value;
      let new_child := take 32 child ++ h in
      Ok (db_put db (sha3 new_child) new_child, sha3 new_child)
    else
      '(db, h) ← Compact._update_rec sha3 fuel db (take 32 child) (path ≪ 1) (d + 1) value;
      let new_child := h ++ drop 32 child in
      Ok (db_put db (sha3 new_child) new_child, sha3 new_child).
Proof. reflexivity. Qed.

Lemma _update_step db root path d value :
  (d < 256)%nat →
  _update db root path d value =
  if bool_decide (root = zh d) then
    Ok (db_put db (msk path d value) (Compact.single_leaf_node path value),
        msk path d value)
  else
    child ← subscriptable (db_get db root);
    if bool_decide (length child = 65%nat) then
      mdkh db path (Compact.key_to_path (take 32 (drop 1 child))) d value (drop 33 child)
    else if top_bit path then
      '(db, h) ← _update db (drop 32 child) (path ≪ 1) (d + 1) value;
      let new_child := take 32 child ++ h in
      Ok (db_put db (sha3 new_child) new_child, sha3 new_child)
    else
      '(db, h) ← _update db (take 32 child) (path ≪ 1) (d + 1) value;
      let new_child := h ++ drop 32 child in
      Ok (db_put db (sha3 new_child) new_child, sha3 new_child).
Proof.
  intros Hd. unfold Compact._update.
  replace (256 - d)%nat with (S (256 - (d + 1))) by lia.
  rewrite _update_rec_S.
  destruct (Nat.eqb_spec d 256) as [|Hne]; [lia|]. reflexivity.
Qed.

(** The digest of a single-leaf subtree whose leaf is the zero value is the
    zero hash of its depth. *)
Lemma msk_zero32 path d : (d ≤ 256)%nat → msk path d zero32 = zh d.
Proof.
  intros Hd. remember (256 - d)%nat as n eqn:Hn.
  revert path d Hd Hn. induction n as [|n IH]; intros path d Hd Hn.
  - replace d with 256%nat by lia. now rewrite msk_256, zerohash_256.
  - rewrite msk_step by lia. rewrite (IH (path ≪ 1) (d + 1)%nat) by lia.
    rewrite (zerohash_succ sha3 d) by lia. rewrite Nat.add_1_r.
    now destruct (top_bit path).
Qed.

Lemma length_msk path d value :
  (∀ x, length (sha3 x) = 32%nat) → length value = 32%nat →
  length (msk path d value) = 32%nat.
Proof.
  intros Hlen Hv. destruct (decide (d < 256)%nat) as [Hd|Hd].
  - rewrite msk_step by done. destruct (top_bit path); apply Hlen.
  - unfold Compact.make_single_key_hash.
    replace (256 - d)%nat with 0%nat by lia.
    unfold Compact.make_single_key_hash_rec. cbv zeta.
    now destruct (d =? 256)%nat.
Qed.

(** C10. Updating the empty root with the all-zero value returns the empty
    root again: the digest of the single zero leaf is [zerohashes[0]]. *)
Theorem compact_update_empty_zero (db : store) (k : bytes) :
  Compact.update sha3 db (zh 0) k zero32 =
  Ok (db_put db (zh 0) (Compact.single_leaf_node (Compact.key_to_path k) zero32), zh 0).
Proof.
  unfold Compact.update. rewrite _update_step by lia.
  rewrite bool_decide_eq_true_2 by done.
  now rewrite msk_zero32 by lia.
Qed.

(** Two paths that agree on the bits 255 down to [d] cannot be told apart by
    the double-key constructor: it recurses to depth 256 and raises. *)
Lemma mdkh_same_raises db p1 p2 d v1 v2 :
  (d ≤ 256)%nat →
  (∀ i, Z.of_nat d ≤ i ≤ 255 → Z.testbit p1 i = Z.testbit p2 i) →
  mdkh db p1 p2 d v1 v2 = Raise SlotException.
Proof.
  intros Hd. remember (256 - d)%nat as n eqn:Hn.
  revert db p1 p2 d Hd Hn. induction n as [|n IH]; intros db p1 p2 d Hd Hn Hbits.
  - replace d with 256%nat by lia. apply mdkh_256.
  - rewrite mdkh_step by lia. rewrite !top_bit_testbit.
    rewrite (Hbits 255) by lia.
    rewrite (IH db (p1 ≪ 1) (p2 ≪ 1) (d + 1)%nat); [|lia|lia|].
    + now destruct (Z.testbit p2 255).
    + intros i Hi. rewrite !Z.shiftl_spec by lia. apply Hbits. lia.
Qed.

(** C2, as the code has it. When the node stored under the root is a 65-byte
    single-leaf node whose key is the key of the update, [update] replaces
    nothing: for a root other than [zerohashes[0]] it raises "Cannot fit two
    values into one slot!"; for the root [zerohashes[0]] it takes the
    empty-subtree case and stores a fresh single-leaf node. *)
Theorem compact_update_same_key (db : store) (root key value child : bytes) :
  db !! root = Some child →
  length child = 65%nat →
  take 32 (drop 1 child) = key →
  (root ≠ zh 0 → Compact.update sha3 db root key value = Raise SlotException)
  ∧ (root = zh 0 →
     Compact.update sha3 db root key value =
     Ok (db_put db (msk (Compact.key_to_path key) 0 value)
           (Compact.single_leaf_node (Compact.key_to_path key) value),
         msk (Compact.key_to_path key) 0 value)).
Proof.
  intros Hroot Hlen Hkey. unfold Compact.update.
  rewrite _update_step by lia. split; intros Hr.
  - rewrite bool_decide_eq_false_2 by done.
    unfold db_get. rewrite Hroot. cbn [subscriptable mbind result_bind].
    rewrite bool_decide_eq_true_2 by done. rewrite Hkey.
    apply mdkh_same_raises; [lia|done].
  - now rewrite bool_decide_eq_true_2 by done.
Qed.

End CompactUpdateEquations.

(** The update of C2 on the tree that holds the single leaf
    [0x00..01 -> 0x11..11]: the same key with another value raises. *)
Lemma compact_update_same_key_witness :
  Compact.update toy_sha3 compact_one_leaf.1 compact_one_leaf.2 key_01 value_22
  = Raise SlotException.
Proof.
  refine (proj1 (compact_update_same_key toy_sha3 compact_one_leaf.1 compact_one_leaf.2
                   key_01 value_22
                   (Compact.single_leaf_node (Compact.key_to_path key_01) value_11)
                   _ _ _) _).
  - vm_compute. reflexivity.
  - vm_compute. reflexivity.
  - vm_compute. reflexivity.
  - vm_compute. discriminate.
Defined.

(** C2 fails as stated: on that tree the root's node is a 65-byte single-leaf
    node with the key [0x00..01], and the update of that key returns no root. *)
Lemma compact_update_same_key_counterexample :
  ¬ (∀ (db : store) (root key value child : bytes),
       db !! root = Some child →
       length child = 65%nat →
       take 32 (drop 1 child) = key →
       length key = 32%nat → length value = 32%nat →
       ∃ db' root',
         Compact.update toy_sha3 db root key value = Ok (db', root')
         ∧ Compact.get toy_sha3 db' root' key = Ok value).
Proof.
  intros H.
  assert (compact_one_leaf.1 !! compact_one_leaf.2
          = Some (Compact.single_leaf_node (Compact.key_to_path key_01) value_11))
    as H1 by (vm_compute; reflexivity).
  assert (length (Compact.single_leaf_node (Compact.key_to_path key_01) value_11)
          = 65%nat) as H2 by (vm_compute; reflexivity).
  assert (take 32 (drop 1 (Compact.single_leaf_node (Compact.key_to_path key_01) value_11))
          = key_01) as H3 by (vm_compute; reflexivity).
  assert (length key_01 = 32%nat) as H4 by (vm_compute; reflexivity).
  assert (length value_22 = 32%nat) as H5 by (vm_compute; reflexivity).
  assert (Compact.update toy_sha3 compact_one_leaf.1 compact_one_leaf.2 key_01 value_22
          = Raise SlotException) as E by (vm_compute; reflexivity).
  pose proof (H _ _ _ _ _ H1 H2 H3 H4 H5) as (db' & root' & Hupd & _).
  rewrite E in Hupd. discriminate.
Qed.

(** ** Proof compression *)

Lemma truthy_land_shiftl b k :
  0 ≤ k → truthy (Z.land b (1 ≪ k)) = Z.testbit b k.
Proof.
  intros Hk. rewrite Z.shiftl_1_l. unfold truthy.
  destruct (Z.testbit b k) eqn:E.
  - destruct (Z.eqb_spec (Z.land b (2 ^ k)) 0) as [H0|]; [|done].
    assert (Z.testbit (Z.land b (2 ^ k)) k = true) as Ht
      by (now rewrite Z.land_spec, E, Z.pow2_bits_true).
    rewrite H0, Z.bits_0 in Ht. discriminate.
  - replace (Z.land b (2 ^ k)) with 0; [done|].
    symmetry. apply Z.bits_inj'. intros n Hn.
    rewrite Z.land_spec, Z.bits_0, Z.pow2_bits_eqb by done.
    destruct (Z.eqb_spec k n) as [->|]; [now rewrite E|apply andb_false_r].
Qed.

Lemma byte_high_bits b m : 0 ≤ b < 256 → 8 ≤ m → Z.testbit b m = false.
Proof.
  intros Hb Hm. rewrite <- (Z.mod_small b (2 ^ 8)) by (change (2 ^ 8) with 256; lia).
  apply Z.mod_pow2_bits_high. lia.
Qed.

Lemma lxor_bit_byte b k : 0 ≤ b < 256 → 0 ≤ k < 8 → 0 ≤ Z.lxor b (1 ≪ k) < 256.
Proof.
  intros Hb Hk. rewrite Z.shiftl_1_l.
  assert (0 ≤ Z.lxor b (2 ^ k)) as Hnn.
  { apply Z.lxor_nonneg. split; intros _; [apply Z.pow_nonneg|]; lia. }
  split; [done|].
  replace (Z.lxor b (2 ^ k)) with (Z.lxor b (2 ^ k) mod 2 ^ 8).
  { change (2 ^ 8) with 256. apply Z.mod_pos_bound. lia. }
  apply Z.bits_inj'. intros n Hn.
  destruct (decide (n < 8)) as [Hlt|Hge].
  - now rewrite Z.mod_pow2_bits_low by lia.
  - rewrite Z.mod_pow2_bits_high by lia.
    rewrite Z.lxor_spec, byte_high_bits by lia.
    rewrite Z.pow2_bits_false by lia. done.
Qed.

Lemma div_mod_8_inj i j :
  (i / 8 = j / 8)%nat → (i mod 8 = j mod 8)%nat → i = j.
Proof.
  intros Hd Hm. rewrite (Nat.div_mod_eq i 8), (Nat.div_mod_eq j 8). lia.
Qed.

(** [bits[i // 8] ^= 1 << i % 8] flips bit [i] of the bitmap and no other. *)
Lemma xor_bit_spec bits i :
  length bits = 32%nat → (i < 256)%nat →
  Forall (λ b, 0 ≤ b < 256) bits →
  ∃ bits',
    Eager.xor_bit bits i = Ok bits'
    ∧ length bits' = 32%nat
    ∧ Forall (λ b, 0 ≤ b < 256) bits'
    ∧ ∀ j, bit_at bits' j = if decide (j = i) then negb (bit_at bits i) else bit_at bits j.
Proof.
  intros Hlen Hi Hrange. unfold Eager.xor_bit, index.
  assert (i / 8 < 32)%nat as Hi8 by (apply Nat.Div0.div_lt_upper_bound; lia).
  destruct (lookup_lt_is_Some_2 bits (i / 8)%nat ltac:(lia)) as [b Hb].
  rewrite Hb. cbn [mbind result_bind].
  assert (0 ≤ b < 256) as Hbr by (eapply Forall_lookup_1 in Hrange; eauto).
  pose proof (Nat.mod_upper_bound i 8 ltac:(lia)) as Hm.
  eexists. split; [reflexivity|]. split; [now rewrite length_insert|]. split.
  - apply Forall_insert; [done|]. apply lxor_bit_byte; lia.
  - intros j. unfold bit_at. rewrite !nth_lookup.
    destruct (decide (j = i)) as [->|Hne].
    + rewrite list_lookup_insert_eq by lia. rewrite Hb. cbn [from_option id].
      rewrite Z.lxor_spec, Z.shiftl_1_l, Z.pow2_bits_true by lia.
      now destruct (Z.testbit b _).
    + destruct (decide (j / 8 = i / 8)%nat) as [He|Hne8].
      * rewrite He, list_lookup_insert_eq by lia. rewrite Hb. cbn [from_option id].
        rewrite Z.lxor_spec, Z.shiftl_1_l, Z.pow2_bits_false.
        -- now destruct (Z.testbit b _).
        -- intros Heq. apply Hne. apply div_mod_8_inj; [done|]. lia.
      * now rewrite list_lookup_insert_ne by done.
Qed.

Section ProofCompression.

Variable sha3 : bytes → bytes.

Local Abbreviation zh := (zerohash sha3).

Lemma compress_loop_cons p proof i bits oproof :
  Eager.compress_loop sha3 (p :: proof) i bits oproof =
  z ← index (zerohashes_table sha3) (i + 1);
  if bool_decide (p = z)
  then bits' ← Eager.xor_bit bits i; Eager.compress_loop sha3 proof (S i) bits' oproof
  else Eager.compress_loop sha3 proof (S i) bits (oproof ++ p).
Proof. reflexivity. Qed.

Lemma compress_loop_nil i bits oproof :
  Eager.compress_loop sha3 [] i bits oproof = Ok (bits, oproof).
Proof. reflexivity. Qed.

Lemma decompress_loop_S n i bits oproof pos proof :
  Eager.decompress_loop sha3 (S n) i bits oproof pos proof =
  b ← index bits (i / 8);
  if truthy (Z.land b (1 ≪ Z.of_nat (i mod 8)))
  then Eager.decompress_loop sha3 n (S i) bits oproof pos (proof ++ [zh (i + 1)])
  else Eager.decompress_loop sha3 n (S i) bits oproof (pos + 32)
         (proof ++ [take 32 (drop pos oproof)]).
Proof. reflexivity. Qed.

Lemma payload_app i a b :
  payload sha3 i (a ++ b) = payload sha3 i a ++ payload sha3 (i + length a) b.
Proof.
  revert i. induction a as [|p a IH]; intros i.
  - cbn. now rewrite Nat.add_0_r.
  - cbn [app payload length]. rewrite IH, <- app_assoc.
    now replace (S i + length a)%nat with (i + S (length a))%nat by lia.
Qed.

Lemma elided_middle pre p suf :
  elided sha3 (pre ++ p :: suf) (length pre) = bool_decide (p = zh (length pre + 1)).
Proof. unfold elided. now rewrite list_lookup_middle. Qed.

Lemma elided_ge proof j : (length proof ≤ j)%nat → elided sha3 proof j = false.
Proof. intros H. unfold elided. now rewrite lookup_ge_None_2. Qed.

(** The loop of [compress_proof]: after the entries before [i], the bitmap
    has exactly the bits of the elided ones; at the end it has the bit of
    every elided entry, and the buffer has gained the kept entries. *)
Lemma compress_loop_spec suf pre bits oproof :
  (length (pre ++ suf) ≤ 256)%nat →
  length bits = 32%nat →
  Forall (λ b, 0 ≤ b < 256) bits →
  (∀ j, bit_at bits j = (j <? length pre)%nat && elided sha3 (pre ++ suf) j) →
  ∃ bits',
    Eager.compress_loop sha3 suf (length pre) bits oproof
      = Ok (bits', oproof ++ payload sha3 (length pre) suf)
    ∧ length bits' = 32%nat
    ∧ Forall (λ b, 0 ≤ b < 256) bits'
    ∧ ∀ j, bit_at bits' j = elided sha3 (pre ++ suf) j.
Proof.
  revert pre bits oproof. induction suf as [|p suf IH]; intros pre bits oproof Hlen Hb Hr Hbits.
  - exists bits. rewrite compress_loop_nil. cbn [payload]. rewrite !app_nil_r in *.
    split; [done|]. split; [done|]. split; [done|].
    intros j. rewrite Hbits. destruct (Nat.ltb_spec j (length pre)); [done|].
    now rewrite elided_ge.
  - rewrite length_app in Hlen. cbn [length] in Hlen.
    rewrite compress_loop_cons, index_zerohashes by lia.
    cbn [mbind result_bind payload].
    assert (pre ++ p :: suf = (pre ++ [p]) ++ suf) as Eall by now rewrite <- app_assoc.
    assert (S (length pre) = length (pre ++ [p])) as Ei
      by (rewrite length_app; cbn; lia).
    destruct (bool_decide (p = zh (length pre + 1))) eqn:Eel.
    + destruct (xor_bit_spec bits (length pre) Hb ltac:(lia) Hr)
        as (bits1 & -> & Hb1 & Hr1 & Hbits1).
      cbn [mbind result_bind]. rewrite Ei, Eall.
      apply IH; [rewrite <- Eall, length_app; cbn; lia|done|done|].
      intros j. rewrite Hbits1, <- Eall, <- Ei.
      destruct (decide (j = length pre)) as [->|Hne].
      * rewrite Hbits, Nat.ltb_irrefl, elided_middle, Eel.
        now rewrite (proj2 (Nat.ltb_lt _ _)) by lia.
      * rewrite Hbits.
        destruct (Nat.ltb_spec j (length pre)), (Nat.ltb_spec j (S (length pre)));
          try lia; done.
    + rewrite Ei, Eall, app_assoc.
      apply IH; [rewrite <- Eall, length_app; cbn; lia|done|done|].
      intros j. rewrite Hbits, <- Eall, <- Ei.
      destruct (decide (j = length pre)) as [->|Hne].
      * rewrite elided_middle, Eel, !andb_false_r. done.
      * destruct (Nat.ltb_spec j (length pre)), (Nat.ltb_spec j (S (length pre)));
          try lia; done.
Qed.

Lemma bytes_of_ints_range bits :
  Forall (λ b, 0 ≤ b < 256) bits →
  Eager.bytes_of_ints bits = Ok (byte_of_Z <$> bits)
  ∧ byte_to_Z <$> (byte_of_Z <$> bits) = bits.
Proof.
  induction 1 as [|b bits Hb _ [IH1 IH2]]; [done|].
  cbn [Eager.bytes_of_ints fmap list_fmap]. rewrite decide_True by done.
  change (list_fmap _ _ byte_of_Z bits) with (byte_of_Z <$> bits).
  rewrite IH1. cbn [mbind result_bind]. split; [done|].
  change (list_fmap _ _ byte_to_Z (byte_of_Z <$> bits))
    with (byte_to_Z <$> (byte_of_Z <$> bits)).
  rewrite IH2, byte_to_of_Z, Z.mod_small by done. done.
Qed.

End ProofCompression.

Section ProofDecompression.

Variable sha3 : bytes → bytes.

Local Abbreviation zh := (zerohash sha3).

Lemma bit_at_lookup bits i b :
  bits !! (i / 8)%nat = Some b → bit_at bits i = Z.testbit b (Z.of_nat (i mod 8)).
Proof. intros Hb. unfold bit_at. now rewrite nth_lookup, Hb. Qed.

(** The loop of [decompress_proof] on the output of [compress_proof]: with
    the entries before [length pre] rebuilt and [pos] right after the kept
    ones among them, it rebuilds the rest. *)
Lemma decompress_loop_spec suf pre bits hdr pos :
  length (pre ++ suf) = 256%nat →
  Forall (λ x, length x = 32%nat) suf →
  length bits = 32%nat →
  length hdr = 32%nat →
  (∀ j, bit_at bits j = elided sha3 (pre ++ suf) j) →
  pos = (32 + length (payload sha3 0 pre))%nat →
  Eager.decompress_loop sha3 (length suf) (length pre) bits
    (hdr ++ payload sha3 0 (pre ++ suf)) pos pre
  = Ok (pre ++ suf).
Proof.
  revert pre pos. induction suf as [|p suf IH]; intros pre pos Hlen H32 Hb Hh Hbits Hpos.
  - now rewrite app_nil_r.
  - assert (pre ++ p :: suf = (pre ++ [p]) ++ suf) as Eall by now rewrite <- app_assoc.
    assert (S (length pre) = length (pre ++ [p])) as Ei
      by (rewrite length_app; cbn; lia).
    rewrite length_app in Hlen. cbn [length] in Hlen.
    apply Forall_cons in H32 as [Hp H32].
    cbn [length]. rewrite decompress_loop_S. unfold index.
    assert (length pre / 8 < 32)%nat as Hi8
      by (apply Nat.Div0.div_lt_upper_bound; lia).
    destruct (lookup_lt_is_Some_2 bits (length pre / 8)%nat ltac:(lia)) as [b Hbl].
    rewrite Hbl. cbn [mbind result_bind].
    rewrite truthy_land_shiftl by lia.
    rewrite <- (bit_at_lookup _ _ _ Hbl), Hbits, elided_middle.
    destruct (bool_decide (p = zh (length pre + 1))) eqn:Eel.
    + apply bool_decide_eq_true_1 in Eel as Hpz. rewrite <- Hpz, Ei, Eall.
      apply IH; try done.
      * rewrite <- Eall, length_app. cbn. lia.
      * now rewrite <- Eall.
      * rewrite payload_app. cbn [payload]. rewrite Nat.add_0_l, Eel.
        now rewrite !app_nil_r.
    + assert (take 32 (drop pos (hdr ++ payload sha3 0 (pre ++ p :: suf))) = p) as ->.
      { rewrite payload_app, Nat.add_0_l. cbn [payload]. rewrite Eel.
        rewrite (app_assoc hdr), drop_app_length' by (rewrite length_app; lia).
        now rewrite take_app_length'. }
      rewrite Ei, Eall. apply IH; try done.
      * rewrite <- Eall, length_app. cbn. lia.
      * now rewrite <- Eall.
      * rewrite payload_app. cbn [payload]. rewrite Nat.add_0_l, Eel.
        rewrite !length_app. cbn [length]. lia.
Qed.

(** C5. Compressing a proof of 256 digests of 32 bytes succeeds, and
    decompressing the outcome gives the proof back. *)
Theorem compress_decompress_roundtrip (proof : list bytes) :
  length proof = 256%nat →
  Forall (λ x, length x = 32%nat) proof →
  ∃ c, Eager.compress_proof sha3 proof = Ok c
       ∧ Eager.decompress_proof sha3 c = Ok proof.
Proof.
  intros Hlen H32.
  destruct (compress_loop_spec sha3 proof [] (repeat 0 32) [])
    as (bits & Hloop & Hb & Hr & Hbits).
  - cbn [app]. lia.
  - apply repeat_length.
  - apply Forall_forall. intros b Hb. apply list_elem_of_In, repeat_spec in Hb. lia.
  - intros j. cbn [length]. unfold bit_at.
    rewrite nth_repeat, Z.bits_0. done.
  - cbn [length app] in Hloop, Hbits.
    destruct (bytes_of_ints_range bits Hr) as [Hbytes Hback].
    exists ((byte_of_Z <$> bits) ++ payload sha3 0 proof). split.
    + unfold Eager.compress_proof. rewrite Hloop. cbn [mbind result_bind].
      rewrite Hbytes. reflexivity.
    + unfold Eager.decompress_proof.
      rewrite take_app_length' by (now rewrite length_fmap).
      rewrite Hback.
      pose proof (decompress_loop_spec proof [] bits (byte_of_Z <$> bits) 32) as Hd.
      cbn [app length] in Hd. rewrite Hlen in Hd.
      apply Hd; try done. now rewrite length_fmap.
Qed.

Lemma decompress_loop_total n i bits oproof pos proof :
  length bits = 32%nat → (i + n ≤ 256)%nat →
  ∃ out, Eager.decompress_loop sha3 n i bits oproof pos proof = Ok out
         ∧ length out = (length proof + n)%nat.
Proof.
  revert i pos proof. induction n as [|n IH]; intros i pos proof Hb Hn.
  - exists proof. split; [reflexivity|lia].
  - rewrite decompress_loop_S. unfold index.
    assert (i / 8 < 32)%nat as Hi8 by (apply Nat.Div0.div_lt_upper_bound; lia).
    destruct (lookup_lt_is_Some_2 bits (i / 8)%nat ltac:(lia)) as [b Hbl].
    rewrite Hbl. cbn [mbind result_bind].
    destruct (truthy _).
    + destruct (IH (S i) pos (proof ++ [zh (i + 1)]) Hb ltac:(lia)) as (out & -> & Ho).
      exists out. split; [done|]. rewrite Ho, length_app. cbn. lia.
    + destruct (IH (S i) (pos + 32)%nat (proof ++ [take 32 (drop pos oproof)]) Hb ltac:(lia))
        as (out & -> & Ho).
      exists out. split; [done|]. rewrite Ho, length_app. cbn. lia.
Qed.

Lemma decompress_loop_short n i bits oproof pos proof :
  (length bits < 32)%nat → (i + n = 256)%nat → (i ≤ 8 * length bits)%nat →
  Eager.decompress_loop sha3 n i bits oproof pos proof = Raise IndexError.
Proof.
  revert i pos proof. induction n as [|n IH]; intros i pos proof Hb Hn Hi; [lia|].
  rewrite decompress_loop_S. unfold index.
  destruct (decide (i < 8 * length bits)%nat) as [Hlt|Hge].
  - assert (i / 8 < length bits)%nat as Hi8
      by (apply Nat.Div0.div_lt_upper_bound; lia).
    destruct (lookup_lt_is_Some_2 bits (i / 8)%nat Hi8) as [b Hbl].
    rewrite Hbl. cbn [mbind result_bind].
    destruct (truthy _); apply IH; lia.
  - assert (i = 8 * length bits)%nat as -> by lia.
    rewrite (Nat.mul_comm 8), Nat.div_mul by lia.
    now rewrite lookup_ge_None_2 by lia.
Qed.

(** Entry [i] as [decompress_proof] rebuilds it: the zero hash of depth
    [i + 1] when bit [i] of the bitmap is set, and else the slice
    [oproof[pos:pos+32]], where [pos] has moved 32 bytes on from 32 for
    every unset bit before [i]. *)
Lemma decompress_loop_entries n i bits oproof proof :
  length bits = 32%nat → (i + n ≤ 256)%nat →
  Eager.decompress_loop sha3 n i bits oproof (32 + 32 * kept_before bits i) proof
  = Ok (proof ++ ((λ j, if bit_at bits j then zh (j + 1)
                        else take 32 (drop (32 + 32 * kept_before bits j) oproof))
                  <$> seq i n)).
Proof.
  revert i proof. induction n as [|n IH]; intros i proof Hb Hn.
  - cbn [seq fmap list_fmap]. now rewrite app_nil_r.
  - rewrite decompress_loop_S. unfold index.
    assert (i / 8 < 32)%nat as Hi8 by (apply Nat.Div0.div_lt_upper_bound; lia).
    destruct (lookup_lt_is_Some_2 bits (i / 8)%nat ltac:(lia)) as [b Hbl].
    rewrite Hbl. cbn [mbind result_bind].
    rewrite truthy_land_shiftl by lia. rewrite <- (bit_at_lookup _ _ _ Hbl).
    cbn [seq fmap list_fmap].
    destruct (bit_at bits i) eqn:Ebit.
    + replace (32 + 32 * kept_before bits i)%nat
        with (32 + 32 * kept_before bits (S i))%nat
        by (cbn [kept_before]; rewrite Ebit; lia).
      rewrite IH by (done || lia). now rewrite <- app_assoc.
    + replace (32 + 32 * kept_before bits i + 32)%nat
        with (32 + 32 * kept_before bits (S i))%nat
        by (cbn [kept_before]; rewrite Ebit; lia).
      rewrite IH by (done || lia). now rewrite <- app_assoc.
Qed.

(** C7, as the code has it. [decompress_proof] raises (an [IndexError]) only
    when the buffer is shorter than the 32-byte bitmap itself. With 32 bytes
    or more it never checks what is left of the buffer: it returns 256
    entries; entry [i] is [zerohashes[i+1]] when bit [i] of the bitmap is
    set, and else the slice [oproof[pos:pos+32]] at the position [pos] that
    the unset bits before [i] give, a slice of the [min 32 (len - pos)]
    bytes that are left there: truncated, or empty, past the end of the
    buffer. *)
Theorem decompress_proof_outcome (oproof : bytes) :
  ((length oproof < 32)%nat → Eager.decompress_proof sha3 oproof = Raise IndexError)
  ∧ ((32 ≤ length oproof)%nat →
     ∃ proof, Eager.decompress_proof sha3 oproof = Ok proof
              ∧ length proof = 256%nat
              ∧ ∀ i, (i < 256)%nat →
                  let bits := byte_to_Z <$> take 32 oproof in
                  let pos := (32 + 32 * kept_before bits i)%nat in
                  proof !! i = Some (if bit_at bits i then zh (i + 1)
                                     else take 32 (drop pos oproof))
                  ∧ length (take 32 (drop pos oproof))
                    = (32 `min` (length oproof - pos))%nat).
Proof.
  unfold Eager.decompress_proof. split; intros Hlen.
  - apply decompress_loop_short; rewrite ?length_fmap, ?length_take; lia.
  - eexists. split; [|split].
    + apply (decompress_loop_entries 256 0 _ oproof []); [|lia].
      rewrite length_fmap, length_take. lia.
    + cbn [app]. now rewrite length_fmap, length_seq.
    + intros i Hi. cbv zeta. split.
      * cbn [app]. rewrite list_lookup_fmap, lookup_seq_lt by done. done.
      * now rewrite length_take, length_drop.
Qed.

End ProofDecompression.

(** C7 fails as stated: a buffer of 32 zero bytes is a bitmap that declares
    256 entries, of which the buffer holds none; [decompress_proof] returns
    256 empty entries. *)
Lemma decompress_proof_truncated_counterexample :
  Eager.decompress_proof toy_sha3 zero32 = Ok (repeat [] 256).
Proof. vm_compute. reflexivity. Qed.

Lemma compress_decompress_roundtrip_witness :
  ∃ c, Eager.compress_proof toy_sha3 sample_proof = Ok c
       ∧ Eager.decompress_proof toy_sha3 c = Ok sample_proof.
Proof.
  apply (compress_decompress_roundtrip toy_sha3 sample_proof).
  - vm_compute. reflexivity.
  - apply (bool_decide_unpack (Forall (λ x : bytes, length x = 32%nat) sample_proof)).
    vm_compute. exact I.
Defined.

Lemma decompress_proof_outcome_witness :
  Eager.decompress_proof toy_sha3 [] = Raise IndexError
  ∧ ∃ proof, Eager.decompress_proof toy_sha3 zero32 = Ok proof
             ∧ length proof = 256%nat
             ∧ ∀ i, (i < 256)%nat →
                 let bits := byte_to_Z <$> take 32 zero32 in
                 let pos := (32 + 32 * kept_before bits i)%nat in
                 proof !! i = Some (if bit_at bits i then zerohash toy_sha3 (i + 1)
                                    else take 32 (drop pos zero32))
                 ∧ length (take 32 (drop pos zero32))
                   = (32 `min` (length zero32 - pos))%nat.
Proof.
  split.
  - apply (proj1 (decompress_proof_outcome toy_sha3 [])). cbn. lia.
  - apply (proj2 (decompress_proof_outcome toy_sha3 zero32)). cbn. lia.
Defined.

(** ** The eager engine: the loops as walks along the flags of the key *)

Section EagerLoops.

Variable sha3 : bytes → bytes.

(** [get] is [descend] along the 256 flags of the key's path. *)
Lemma eager_get_loop_descend n db v path :
  Eager.get_loop n db v path = Eager.descend db v (path_flags n path).
Proof.
  revert v path. induction n as [|n IH]; intros v path; [done|].
  cbn [Eager.get_loop path_flags Eager.descend].
  destruct (subscriptable (db_get db v)) as [child|e]; [|done].
  cbn [mbind result_bind]. apply IH.
Qed.

Lemma sidenodes_loop_siblings n db v path acc :
  Eager.sidenodes_loop n db v path acc =
  ss ← siblings db v (path_flags n path); Ok (acc ++ ss).
Proof.
  revert v path acc. induction n as [|n IH]; intros v path acc.
  - cbn. now rewrite app_nil_r.
  - cbn [Eager.sidenodes_loop path_flags siblings].
    destruct (subscriptable (db_get db v)) as [child|e]; [|done].
    cbn [mbind result_bind].
    destruct (top_bit path); rewrite IH;
      (destruct (siblings db _ _) as [ss|e]; [|done]);
      cbn [mbind result_bind]; now rewrite <- app_assoc.
Qed.

Lemma length_siblings db v bs ss :
  siblings db v bs = Ok ss → length ss = length bs.
Proof.
  revert v ss. induction bs as [|b bs IH]; intros v ss H.
  - injection H as <-. done.
  - cbn [siblings] in H.
    destruct (subscriptable (db_get db v)) as [child|e]; [|done].
    cbn [mbind result_bind] in H.
    destruct (siblings db _ bs) as [ss'|e] eqn:E; [|done].
    cbn [mbind result_bind] in H. injection H as <-.
    cbn [length]. f_equal. eapply IH, E.
Qed.

Lemma graft_snoc l b s v :
  graft sha3 (l ++ [(b, s)]) v = graft sha3 l (sha3 (node_of b s v)).
Proof.
  induction l as [|[b' s'] l IH]; [done|]. cbn [app graft]. now rewrite IH.
Qed.

Lemma graft_nodes_snoc l b s v :
  graft_nodes sha3 (l ++ [(b, s)]) v
  = graft_nodes sha3 l (sha3 (node_of b s v)) ++ [node_of b s v].
Proof.
  induction l as [|[b' s'] l IH]; [done|].
  cbn [app graft_nodes]. now rewrite IH, graft_snoc.
Qed.

Lemma graft_path_spec l v :
  graft_path sha3 l v = (graft sha3 l v, graft_nodes sha3 l v).
Proof.
  induction l as [|[b s] l IH]; [done|].
  cbn [graft_path graft graft_nodes]. now rewrite IH.
Qed.

Lemma put_nodes_snoc nodes c db :
  put_nodes sha3 (nodes ++ [c]) db = put_nodes sha3 nodes (db_put db (sha3 c) c).
Proof. unfold put_nodes. now rewrite foldr_app. Qed.

(** The second pass of [update] puts the nodes of the path that holds [v]
    under the last [n] siblings, and returns its root. *)
Lemma update_loop_graft n db pre ss path2 v :
  length ss = n →
  Eager.update_loop sha3 n db (pre ++ ss) path2 v =
  let l := zip (reverse (low_flags n path2)) ss in
  Ok (put_nodes sha3 (graft_nodes sha3 l v) db, graft sha3 l v).
Proof.
  revert db ss path2 v. induction n as [|n IH]; intros db ss path2 v Hlen.
  - destruct ss; [done|discriminate].
  - destruct ss as [|s ss _] using rev_ind; [discriminate|].
    rewrite length_app in Hlen. cbn [length] in Hlen.
    cbn [Eager.update_loop low_flags]. unfold index.
    rewrite app_assoc, length_app. cbn [length].
    replace (length (pre ++ ss) + 1 - 1)%nat with (length (pre ++ ss)) by lia.
    rewrite list_lookup_middle by done. cbn [mbind result_bind].
    rewrite removelast_last, IH by lia. cbv zeta.
    rewrite reverse_cons, zip_with_app
      by (rewrite length_reverse, length_low_flags; lia).
    cbn [zip_with]. fold (node_of (truthy (Z.land path2 1)) s v).
    now rewrite graft_snoc, graft_nodes_snoc, put_nodes_snoc.
Qed.

(** [update], in one equation: the siblings of the key's path, then the
    nodes of the new path. *)
Lemma eager_update_graft db root key value :
  Eager.update sha3 db root key value =
  ss ← siblings db root (path_flags 256 (Eager.key_to_path key));
  let l := zip (path_flags 256 (Eager.key_to_path key)) ss in
  Ok (put_nodes sha3 (graft_nodes sha3 l value) db, graft sha3 l value).
Proof.
  unfold Eager.update. cbv zeta. rewrite sidenodes_loop_siblings.
  destruct (siblings db root _) as [ss|e] eqn:E; [|done].
  cbn [mbind result_bind app].
  apply length_siblings in E. rewrite length_path_flags in E.
  rewrite <- (app_nil_l ss) at 1. rewrite update_loop_graft by done.
  cbv zeta. now rewrite low_flags_reverse, reverse_involutive.
Qed.

Lemma eager_make_merkle_proof_siblings db root key :
  Eager.make_merkle_proof db root key
  = siblings db root (path_flags 256 (Eager.key_to_path key)).
Proof.
  unfold Eager.make_merkle_proof. rewrite sidenodes_loop_siblings.
  now destruct (siblings db root _).
Qed.

(** Whenever [update] returns, the store it returns is the old one with
    the nodes of [eager_update_nodes] put in. *)
Lemma eager_update_nodes_put db root key value db' root' :
  Eager.update sha3 db root key value = Ok (db', root') →
  db' = put_nodes sha3 (eager_update_nodes sha3 db root key value) db.
Proof.
  rewrite eager_update_graft. unfold eager_update_nodes.
  rewrite eager_make_merkle_proof_siblings.
  destruct (siblings db root _) as [ss|e]; [|done].
  cbn [mbind result_bind]. cbv zeta. rewrite graft_path_spec. now intros [= <- _].
Qed.

End EagerLoops.

(** ** The eager engine: what the puts of a path do to the store *)

Section EagerStore.

Variable sha3 : bytes → bytes.

Lemma put_nodes_cons c nodes db :
  put_nodes sha3 (c :: nodes) db = db_put (put_nodes sha3 nodes db) (sha3 c) c.
Proof. reflexivity. Qed.

(** The puts never delete: an entry of the new store is an old entry or one
    of the nodes, under its digest. *)
Lemma put_nodes_lookup_inv nodes db h c :
  put_nodes sha3 nodes db !! h = Some c →
  db !! h = Some c ∨ (c ∈ nodes ∧ h = sha3 c).
Proof.
  induction nodes as [|c' nodes IH]; [now left|].
  rewrite put_nodes_cons. unfold db_put.
  destruct (decide (sha3 c' = h)) as [<-|Hne].
  - rewrite lookup_insert_eq. intros [= <-]. right. split; [left|done].
  - rewrite lookup_insert_ne by done. intros H.
    destruct (IH H) as [?|[? ?]]; [now left|]. right. split; [now right|done].
Qed.

Lemma put_nodes_dom nodes db h :
  is_Some (db !! h) → is_Some (put_nodes sha3 nodes db !! h).
Proof.
  intros H. induction nodes as [|c nodes IH]; [done|].
  rewrite put_nodes_cons. unfold db_put.
  destruct (decide (sha3 c = h)) as [<-|Hne].
  - rewrite lookup_insert_eq. eauto.
  - now rewrite lookup_insert_ne.
Qed.

Lemma put_nodes_wf nodes db :
  wf_store sha3 db →
  Forall (λ c, length c = 64%nat) nodes →
  wf_store sha3 (put_nodes sha3 nodes db).
Proof.
  intros Hwf Hlen h c H.
  destruct (put_nodes_lookup_inv _ _ _ _ H) as [Hdb|[Hin ->]]; [now apply Hwf|].
  split; [done|]. eapply Forall_forall in Hlen; eauto.
Qed.

Lemma collision_free_weaken (P Q : bytes → Prop) :
  (∀ x, Q x → P x) → collision_free sha3 P → collision_free sha3 Q.
Proof. intros HQP H x y Hx Hy. apply H; auto. Qed.

(** Without a collision between the nodes put and the nodes stored, the
    puts change no entry, and every node put is found under its digest. *)
Lemma put_nodes_preserves nodes db :
  wf_store sha3 db →
  collision_free sha3 (λ c, stored db c ∨ c ∈ nodes) →
  db ⊆ put_nodes sha3 nodes db
  ∧ ∀ c, c ∈ nodes → put_nodes sha3 nodes db !! sha3 c = Some c.
Proof.
  intros Hwf. induction nodes as [|c nodes IH]; intros Hcf.
  - split; [done|]. intros c Hc. inversion Hc.
  - destruct IH as [IHsub IHin].
    { eapply collision_free_weaken; [|exact Hcf].
      intros x [?|?]; [now left|right; now right]. }
    rewrite put_nodes_cons. unfold db_put.
    assert (∀ x, put_nodes sha3 nodes db !! sha3 c = Some x → x = c) as Hsame.
    { intros x Hx. apply Hcf; [|right; left|].
      - destruct (put_nodes_lookup_inv _ _ _ _ Hx) as [Hdb|[Hin _]].
        + left. now exists (sha3 c).
        + right. now right.
      - destruct (put_nodes_lookup_inv _ _ _ _ Hx) as [Hdb|[_ He]]; [|done].
        symmetry. now apply Hwf. }
    assert (put_nodes sha3 nodes db ⊆ <[sha3 c:=c]> (put_nodes sha3 nodes db)) as Hstep.
    { apply map_subseteq_spec. intros h x Hx.
      destruct (decide (sha3 c = h)) as [<-|Hne].
      - rewrite lookup_insert_eq. f_equal. symmetry. now apply Hsame.
      - now rewrite lookup_insert_ne. }
    split; [now transitivity (put_nodes sha3 nodes db)|].
    intros x Hx. apply elem_of_cons in Hx as [->|Hx].
    + apply lookup_insert_eq.
    + eapply lookup_weaken; [|exact Hstep]. now apply IHin.
Qed.

Lemma descend_mono db db' h bs v :
  db ⊆ db' → Eager.descend db h bs = Ok v → Eager.descend db' h bs = Ok v.
Proof.
  intros Hsub. revert h. induction bs as [|b bs IH]; intros h; [done|].
  cbn [Eager.descend]. unfold db_get.
  destruct (db !! h) as [c|] eqn:E; [|done].
  rewrite (lookup_weaken _ _ _ _ E Hsub). cbn [subscriptable mbind result_bind].
  apply IH.
Qed.

Lemma closed_mono n db db' h :
  db ⊆ db' → closed n db h → closed n db' h.
Proof.
  intros Hsub. revert h. induction n as [|n IH]; intros h; [done|].
  intros (c & Hc & Hlen & Hl & Hr). exists c.
  split; [eapply lookup_weaken; eauto|]. split; [done|]. split; auto.
Qed.

(** A walk of [n] steps down a subtree of height [n] that the store holds
    ends at a 32-byte value. *)
Lemma closed_descend n db h bs :
  closed n db h → length bs = n →
  ∃ v, Eager.descend db h bs = Ok v ∧ length v = 32%nat.
Proof.
  revert h bs. induction n as [|n IH]; intros h bs Hc Hbs.
  - destruct bs; [|discriminate]. exists h. done.
  - destruct bs as [|b bs]; [discriminate|].
    destruct Hc as (c & Hc & Hlen & Hl & Hr).
    cbn [Eager.descend]. unfold db_get. rewrite Hc.
    cbn [subscriptable mbind result_bind].
    destruct b; apply IH; auto.
Qed.

Lemma closed_siblings n db h bs :
  closed n db h → length bs = n → ∃ ss, siblings db h bs = Ok ss.
Proof.
  revert h bs. induction n as [|n IH]; intros h bs Hc Hbs.
  - destruct bs; [|discriminate]. now exists [].
  - destruct bs as [|b bs]; [discriminate|].
    destruct Hc as (c & Hc & Hlen & Hl & Hr).
    cbn [siblings]. unfold db_get. rewrite Hc.
    cbn [subscriptable mbind result_bind].
    destruct (IH (if b then drop 32 c else take 32 c) bs) as [ss ->];
      [destruct b; done|auto|].
    cbn [mbind result_bind]. eauto.
Qed.

End EagerStore.

(** ** The eager engine: reading the path that an update wrote *)

Section EagerPaths.

Variable sha3 : bytes → bytes.
Hypothesis sha3_len : ∀ x, length (sha3 x) = 32%nat.

Lemma length_graft l v : length v = 32%nat → length (graft sha3 l v) = 32%nat.
Proof. intros Hv. destruct l as [|[b s] l]; [done|]. apply sha3_len. Qed.

Lemma length_node_of b s v :
  length s = 32%nat → length v = 32%nat → length (node_of b s v) = 64%nat.
Proof. intros Hs Hv. unfold node_of. destruct b; rewrite length_app; lia. Qed.

(** The half of [node_of b s v] on the side of the flag is [v], the other
    half is [s]. *)
Lemma node_of_path (b : bool) s v :
  length s = 32%nat → length v = 32%nat →
  (if b then drop 32 (node_of b s v) else take 32 (node_of b s v)) = v.
Proof.
  intros Hs Hv. unfold node_of. destruct b.
  - now rewrite drop_app_length'.
  - now rewrite take_app_length'.
Qed.

Lemma node_of_sibling (b : bool) s v :
  length s = 32%nat → length v = 32%nat →
  (if b then take 32 (node_of b s v) else drop 32 (node_of b s v)) = s.
Proof.
  intros Hs Hv. unfold node_of. destruct b.
  - now rewrite take_app_length'.
  - now rewrite drop_app_length'.
Qed.

Lemma node_of_halves (b : bool) (c : bytes) :
  node_of b (if b then take 32 c else drop 32 c)
            (if b then drop 32 c else take 32 c) = c.
Proof. unfold node_of. destruct b; apply take_drop. Qed.

Lemma siblings_lengths n db h bs ss :
  closed n db h → length bs = n → siblings db h bs = Ok ss →
  Forall (λ s, length s = 32%nat) ss.
Proof.
  revert h bs ss. induction n as [|n IH]; intros h bs ss Hc Hbs Hss.
  - destruct bs; [|discriminate]. injection Hss as <-. constructor.
  - destruct bs as [|b bs]; [discriminate|].
    destruct Hc as (c & Hc & Hlen & Hl & Hr).
    cbn [siblings] in Hss. unfold db_get in Hss. rewrite Hc in Hss.
    cbn [subscriptable mbind result_bind] in Hss.
    destruct (siblings db _ bs) as [ss'|e] eqn:E; [|done].
    cbn [mbind result_bind] in Hss. injection Hss as <-.
    constructor.
    + destruct b; [rewrite length_take|rewrite length_drop]; lia.
    + eapply (IH _ bs); [|auto|exact E]. now destruct b.
Qed.

Lemma graft_nodes_lengths l v :
  Forall (λ x, length x.2 = 32%nat) l → length v = 32%nat →
  Forall (λ c, length c = 64%nat) (graft_nodes sha3 l v).
Proof.
  intros Hl Hv. induction Hl as [|[b s] l Hs _ IH]; [constructor|].
  cbn [graft_nodes]. constructor; [|done].
  apply length_node_of; [done|now apply length_graft].
Qed.

Lemma Forall_zip_snd (bs : list bool) (ss : list bytes) :
  Forall (λ s, length s = 32%nat) ss →
  Forall (λ x : bool * bytes, length x.2 = 32%nat) (zip bs ss).
Proof.
  intros H. revert bs. induction H as [|s ss Hs _ IH]; intros [|b bs];
    try constructor; auto.
Qed.

(** Reading back: when every node of the path is found under its digest,
    the walk along the flags of the path ends at [v]. *)
Lemma descend_graft l v db :
  Forall (λ x, length x.2 = 32%nat) l → length v = 32%nat →
  (∀ c, c ∈ graft_nodes sha3 l v → db !! sha3 c = Some c) →
  Eager.descend db (graft sha3 l v) l.*1 = Ok v.
Proof.
  intros Hl Hv. induction Hl as [|[b s] l Hs _ IH]; intros Hin; [done|].
  cbn [graft fmap list_fmap fst Eager.descend]. unfold db_get.
  rewrite Hin by (cbn [graft_nodes]; left).
  cbn [subscriptable mbind result_bind].
  rewrite node_of_path by (try apply length_graft; done).
  apply IH. intros c Hc. apply Hin. cbn [graft_nodes]. now right.
Qed.

(** A walk that leaves the path of the update ends where it ended before. *)
Lemma descend_graft_other n db db' h bs bs2 ss v :
  closed n db h → length bs = n → length bs2 = n → bs2 ≠ bs →
  siblings db h bs = Ok ss →
  db ⊆ db' → length v = 32%nat →
  (∀ c, c ∈ graft_nodes sha3 (zip bs ss) v → db' !! sha3 c = Some c) →
  Eager.descend db' (graft sha3 (zip bs ss) v) bs2 = Eager.descend db h bs2.
Proof.
  intros Hc Hbs Hbs2 Hne Hss Hsub Hv.
  revert h bs bs2 ss Hc Hbs Hbs2 Hne Hss.
  induction n as [|n IH]; intros h bs bs2 ss Hc Hbs Hbs2 Hne Hss Hin.
  - destruct bs, bs2; try discriminate. done.
  - destruct bs as [|b bs]; [discriminate|].
    destruct bs2 as [|b2 bs2]; [discriminate|].
    pose proof (siblings_lengths _ _ _ _ _ Hc Hbs Hss) as Hlens.
    destruct Hc as (c & Hc & Hlen & Hl & Hr).
    cbn [siblings] in Hss. unfold db_get in Hss. rewrite Hc in Hss.
    cbn [subscriptable mbind result_bind] in Hss.
    destruct (siblings db _ bs) as [ss'|e] eqn:E; [|done].
    cbn [mbind result_bind] in Hss. injection Hss as <-.
    apply Forall_cons in Hlens as [Hs Hlens].
    cbn [zip_with graft Eager.descend] in *. unfold db_get. rewrite Hc.
    rewrite Hin by (cbn [graft_nodes]; left).
    cbn [subscriptable mbind result_bind].
    assert (length (graft sha3 (zip bs ss') v) = 32%nat) as Hg
      by now apply length_graft.
    destruct (decide (b2 = b)) as [->|Hb].
    + rewrite node_of_path by done.
      apply IH.
      * now destruct b.
      * now injection Hbs.
      * now injection Hbs2.
      * intros ->. now apply Hne.
      * exact E.
      * intros x Hx. apply Hin. cbn [graft_nodes]. now right.
    + assert ((if b2 then drop 32 (node_of b _ (graft sha3 (zip bs ss') v))
               else take 32 (node_of b _ (graft sha3 (zip bs ss') v)))
              = if b2 then drop 32 c else take 32 c) as ->.
      { pose proof (node_of_sibling b _ _ Hs Hg) as Hsib.
        destruct b, b2; done. }
      destruct (closed_descend n db (if b2 then drop 32 c else take 32 c) bs2)
        as (x & Hx & _); [now destruct b2|now injection Hbs2|].
      rewrite Hx. eapply descend_mono; eauto.
Qed.

(** The new path is the root of a full subtree of the new store. *)
Lemma closed_graft n db db' h bs ss v :
  closed n db h → length bs = n →
  siblings db h bs = Ok ss →
  db ⊆ db' → length v = 32%nat →
  (∀ c, c ∈ graft_nodes sha3 (zip bs ss) v → db' !! sha3 c = Some c) →
  closed n db' (graft sha3 (zip bs ss) v).
Proof.
  intros Hc Hbs Hss Hsub Hv.
  revert h bs ss Hc Hbs Hss.
  induction n as [|n IH]; intros h bs ss Hc Hbs Hss Hin.
  - destruct bs; [|discriminate]. injection Hss as <-. done.
  - destruct bs as [|b bs]; [discriminate|].
    pose proof (siblings_lengths _ _ _ _ _ Hc Hbs Hss) as Hlens.
    destruct Hc as (c & Hc & Hlen & Hl & Hr).
    cbn [siblings] in Hss. unfold db_get in Hss. rewrite Hc in Hss.
    cbn [subscriptable mbind result_bind] in Hss.
    destruct (siblings db _ bs) as [ss'|e] eqn:E; [|done].
    cbn [mbind result_bind] in Hss. injection Hss as <-.
    apply Forall_cons in Hlens as [Hs Hlens].
    cbn [zip_with graft] in *.
    assert (length (graft sha3 (zip bs ss') v) = 32%nat) as Hg
      by now apply length_graft.
    assert (closed n db' (graft sha3 (zip bs ss') v)) as Hpath.
    { apply (IH (if b then drop 32 c else take 32 c) bs ss');
        [now destruct b|now injection Hbs|done|].
      intros x Hx. apply Hin. cbn [graft_nodes]. now right. }
    assert (closed n db' (if b then take 32 c else drop 32 c)) as Hsib
      by (eapply closed_mono; [done|now destruct b]).
    eexists. split; [apply Hin; cbn [graft_nodes]; left|].
    split; [now apply length_node_of|].
    pose proof (node_of_path b _ _ Hs Hg) as Hp.
    pose proof (node_of_sibling b _ _ Hs Hg) as Hsb.
    destruct b; rewrite Hp, Hsb; done.
Qed.

(** In a store whose entries sit under their own digests, the siblings of a
    walk rebuild the digest the walk started from. *)
Lemma graft_siblings db h bs ss v :
  wf_store sha3 db →
  siblings db h bs = Ok ss → Eager.descend db h bs = Ok v →
  graft sha3 (zip bs ss) v = h.
Proof.
  intros Hwf. revert h ss. induction bs as [|b bs IH]; intros h ss Hss Hd.
  - injection Hss as <-. now injection Hd.
  - cbn [siblings Eager.descend] in *. unfold db_get in *.
    destruct (db !! h) as [c|] eqn:Hc; [|done].
    cbn [subscriptable mbind result_bind] in *.
    destruct (siblings db _ bs) as [ss'|e] eqn:E; [|done].
    cbn [mbind result_bind] in Hss. injection Hss as <-.
    cbn [zip_with graft]. rewrite (IH _ _ E Hd), node_of_halves.
    symmetry. now apply Hwf.
Qed.

End EagerPaths.

(** ** Keys and their flags *)

Lemma key_to_path_range k :
  length k = 32%nat → 0 ≤ from_bytes_big k < 2 ^ 256.
Proof.
  intros Hk. pose proof (from_bytes_big_range k) as H. rewrite Hk in H. exact H.
Qed.

Lemma path_flags_inj p q :
  0 ≤ p < 2 ^ 256 → 0 ≤ q < 2 ^ 256 →
  path_flags 256 p = path_flags 256 q → p = q.
Proof.
  intros Hp Hq Hf. apply Z.bits_inj'. intros n Hn.
  destruct (decide (n < 256)) as [Hlt|Hge].
  - assert (path_flags 256 p !! Z.to_nat (255 - n) = path_flags 256 q !! Z.to_nat (255 - n))
      as Hl by now rewrite Hf.
    rewrite !path_flags_nth in Hl by lia.
    replace (255 - Z.of_nat (Z.to_nat (255 - n))) with n in Hl by lia.
    now injection Hl.
  - rewrite <- (Z.mod_small p (2 ^ 256)), <- (Z.mod_small q (2 ^ 256)) by done.
    now rewrite !Z.mod_pow2_bits_high by lia.
Qed.

(** Two 32-byte keys with the same 256 flags are the same key. *)
Lemma key_flags_inj k1 k2 :
  length k1 = 32%nat → length k2 = 32%nat →
  path_flags 256 (from_bytes_big k1) = path_flags 256 (from_bytes_big k2) →
  k1 = k2.
Proof.
  intros H1 H2 Hf. apply from_bytes_big_inj; [congruence|].
  apply path_flags_inj; auto using key_to_path_range.
Qed.

(** ** The eager engine: the empty tree *)

Section EagerNewTree.

Variable sha3 : bytes → bytes.
Hypothesis sha3_len : ∀ x, length (sha3 x) = 32%nat.

Local Abbreviation zd := (zero_digest sha3).

Lemma length_zero_digest n : length (zd n) = 32%nat.
Proof. destruct n; [done|]. rewrite zero_digest_S. apply sha3_len. Qed.

Lemma new_tree_loop_put_nodes n m db :
  Eager.new_tree_loop sha3 n db (zd m) =
  (put_nodes sha3 ((λ j, zd j ++ zd j) <$> reverse (seq m n)) db, zd (m + n)).
Proof.
  revert m db. induction n as [|n IH]; intros m db.
  - cbn. now rewrite Nat.add_0_r.
  - cbn [Eager.new_tree_loop seq]. rewrite <- zero_digest_S, IH.
    rewrite reverse_cons, fmap_app.
    assert ((λ j, zd j ++ zd j) <$> [m] = [zd m ++ zd m]) as -> by reflexivity.
    now rewrite put_nodes_snoc, zero_digest_S, Nat.add_succ_r.
Qed.

Lemma zero_nodes_digests :
  zero_nodes sha3 = (λ j, zd j ++ zd j) <$> reverse (seq 0 256).
Proof.
  unfold zero_nodes. rewrite zerohashes_table_digests.
  rewrite (seq_S 256), reverse_app. cbn [reverse rev_append app fmap list_fmap tail].
  change (list_fmap nat bytes zd (reverse (seq 0 256))) with (zd <$> reverse (seq 0 256)).
  rewrite <- list_fmap_compose. reflexivity.
Qed.

(** [new_tree] puts the 256 zero nodes and returns [zerohashes[0]]. *)
Lemma eager_new_tree_put_nodes db :
  Eager.new_tree sha3 db = (put_nodes sha3 (zero_nodes sha3) db, zerohash sha3 0).
Proof.
  unfold Eager.new_tree. rewrite <- (zero_digest_0 sha3), new_tree_loop_put_nodes.
  now rewrite zero_nodes_digests, zerohash_digest by lia.
Qed.

Lemma zero_node_elem n :
  (n < 256)%nat → zd n ++ zd n ∈ zero_nodes sha3.
Proof.
  intros Hn. rewrite zero_nodes_digests. apply list_elem_of_fmap.
  exists n. split; [done|]. apply elem_of_reverse, elem_of_seq. lia.
Qed.

Lemma zero_nodes_lengths : Forall (λ c, length c = 64%nat) (zero_nodes sha3).
Proof.
  rewrite zero_nodes_digests. apply Forall_fmap, Forall_forall. intros j _.
  cbn. rewrite length_app, length_zero_digest. lia.
Qed.

(** A store that has every zero node under its digest holds the all-zero
    subtree of every height. *)
Lemma closed_zero_digest n db :
  (∀ c, c ∈ zero_nodes sha3 → db !! sha3 c = Some c) →
  (n ≤ 256)%nat → closed n db (zd n).
Proof.
  intros Hin. induction n as [|n IH]; intros Hn; [done|].
  exists (zd n ++ zd n). rewrite zero_digest_S.
  split; [apply Hin, zero_node_elem; lia|].
  split; [rewrite length_app, length_zero_digest; lia|].
  rewrite take_app_length', drop_app_length'
      by (symmetry; apply length_zero_digest).
  split; apply IH; lia.
Qed.

Lemma descend_zero_digest n db bs :
  (∀ c, c ∈ zero_nodes sha3 → db !! sha3 c = Some c) →
  (n ≤ 256)%nat → length bs = n →
  Eager.descend db (zd n) bs = Ok zero32.
Proof.
  intros Hin. revert bs. induction n as [|n IH]; intros bs Hn Hbs.
  - destruct bs; [done|discriminate].
  - destruct bs as [|b bs]; [discriminate|].
    cbn [Eager.descend]. unfold db_get.
    rewrite zero_digest_S, Hin by (apply zero_node_elem; lia).
    cbn [subscriptable mbind result_bind].
    rewrite take_app_length', drop_app_length'
      by (symmetry; apply length_zero_digest).
    destruct b; apply IH; auto with lia.
Qed.

End EagerNewTree.

(** ** The eager engine: updates and histories *)

Section EagerRuns.

Variable sha3 : bytes → bytes.
Hypothesis sha3_len : ∀ x, length (sha3 x) = 32%nat.

Local Abbreviation flags key := (path_flags 256 (Eager.key_to_path key)).

Lemma eager_update_nodes_siblings db root key value ss :
  siblings db root (flags key) = Ok ss →
  eager_update_nodes sha3 db root key value
  = graft_nodes sha3 (zip (flags key) ss) value.
Proof.
  intros Hss. unfold eager_update_nodes.
  rewrite eager_make_merkle_proof_siblings, Hss, graft_path_spec. reflexivity.
Qed.

(** One update of a well-formed tree, without a collision among the nodes
    stored and written: it returns; it changes no entry of the store; the
    new tree is well formed, reads [value] at [key] and reads every other
    key as before. *)
Lemma eager_update_step db root key value :
  wf_store sha3 db → closed 256 db root →
  length key = 32%nat → length value = 32%nat →
  collision_free sha3 (λ c, stored db c ∨ c ∈ eager_update_nodes sha3 db root key value) →
  ∃ db' root',
    Eager.update sha3 db root key value = Ok (db', root')
    ∧ db ⊆ db' ∧ wf_store sha3 db' ∧ closed 256 db' root'
    ∧ Eager.get db' root' key = Ok value
    ∧ ∀ key2, length key2 = 32%nat → key2 ≠ key →
        Eager.get db' root' key2 = Eager.get db root key2.
Proof.
  intros Hwf Hcl Hk Hv Hcf.
  pose proof (length_path_flags 256 (Eager.key_to_path key)) as Hfl.
  destruct (closed_siblings 256 db root _ Hcl Hfl) as [ss Hss].
  pose proof (siblings_lengths 256 _ _ _ _ Hcl Hfl Hss) as Hlens.
  rewrite (eager_update_nodes_siblings _ _ _ _ _ Hss) in Hcf.
  destruct (put_nodes_preserves sha3 _ db Hwf Hcf) as [Hsub Hin].
  rewrite eager_update_graft, Hss. cbn [mbind result_bind]. cbv zeta.
  eexists _, _. split; [reflexivity|]. split; [exact Hsub|].
  assert (length ss = 256%nat) as Hlss
    by (rewrite (length_siblings _ _ _ _ Hss); exact Hfl).
  split; [|split; [|split]].
  - apply put_nodes_wf; [exact Hwf|].
    apply graft_nodes_lengths; [exact sha3_len| |exact Hv].
    apply Forall_zip_snd, Hlens.
  - exact (closed_graft sha3 sha3_len 256 db _ root _ ss value Hcl Hfl Hss Hsub Hv Hin).
  - unfold Eager.get. rewrite eager_get_loop_descend.
    pose proof (descend_graft sha3 sha3_len (zip (flags key) ss) value _
                  (Forall_zip_snd _ _ Hlens) Hv Hin) as Hd.
    rewrite fst_zip in Hd by (rewrite Hfl, Hlss; lia). exact Hd.
  - intros key2 Hk2 Hne. unfold Eager.get. rewrite !eager_get_loop_descend.
    pose proof (length_path_flags 256 (Eager.key_to_path key2)) as Hfl2.
    refine (descend_graft_other sha3 sha3_len 256 db _ root _ _ ss value
              Hcl Hfl Hfl2 _ Hss Hsub Hv Hin).
    intros Hf. apply Hne. apply key_flags_inj; [exact Hk2|exact Hk|exact Hf].
Qed.

(** Every tree of a history is well formed. *)
Lemma eager_run_wf history db root :
  eager_run sha3 history db root → wf_store sha3 db ∧ closed 256 db root.
Proof.
  induction 1 as [Hcf|history db root key value db' root' _ [IHwf IHcl] Hk Hv Hcf Hupd].
  - rewrite eager_new_tree_put_nodes by done. cbn [fst snd].
    assert (wf_store sha3 (∅ : store)) as Hwf0 by (intros h c H; inversion H).
    destruct (put_nodes_preserves sha3 (zero_nodes sha3) ∅ Hwf0) as [_ Hin].
    { eapply collision_free_weaken; [|exact Hcf].
      intros x [[h Hh]|Hx]; [inversion Hh|done]. }
    split.
    + apply put_nodes_wf; [done|]. now apply zero_nodes_lengths.
    + rewrite zerohash_digest by lia. now apply closed_zero_digest.
  - destruct (eager_update_step db root key value IHwf IHcl Hk Hv Hcf)
      as (db1 & root1 & Hupd1 & _ & Hwf1 & Hcl1 & _).
    rewrite Hupd in Hupd1. injection Hupd1 as <- <-. done.
Qed.

(** The tree of a history gives every key its latest value, and the zero
    value to a key never written. *)
Theorem eager_get_latest history db root key :
  eager_run sha3 history db root → length key = 32%nat →
  Eager.get db root key = Ok (latest history key).
Proof.
  intros Hrun Hk. revert key Hk.
  induction Hrun as [Hcf|history db root key' value db' root' Hrun IH Hk' Hv Hcf Hupd];
    intros key Hk.
  - rewrite eager_new_tree_put_nodes by done. cbn [fst snd latest].
    assert (wf_store sha3 (∅ : store)) as Hwf0 by (intros h c H; inversion H).
    destruct (put_nodes_preserves sha3 (zero_nodes sha3) ∅ Hwf0) as [_ Hin].
    { eapply collision_free_weaken; [|exact Hcf].
      intros x [[h Hh]|Hx]; [inversion Hh|done]. }
    unfold Eager.get. rewrite eager_get_loop_descend, zerohash_digest by lia.
    apply descend_zero_digest; auto using length_path_flags.
  - destruct (eager_run_wf _ _ _ Hrun) as [Hwf Hcl].
    destruct (eager_update_step db root key' value Hwf Hcl Hk' Hv Hcf)
      as (db1 & root1 & Hupd1 & _ & _ & _ & Hget & Hother).
    rewrite Hupd in Hupd1. injection Hupd1 as <- <-.
    cbn [latest]. destruct (decide (key' = key)) as [->|Hne]; [done|].
    rewrite Hother by auto. now apply IH.
Qed.

(** [verify_proof] walks up from the value with the last [n] entries of the
    proof; [i] entries are behind it. *)
Lemma verify_loop_graft n i pre ss post path v :
  length ss = n → length post = i →
  Eager.verify_loop sha3 n i (pre ++ ss ++ post) path v =
  Ok (graft sha3 (zip (reverse (low_flags n path)) ss) v).
Proof.
  revert i ss post path v. induction n as [|n IH]; intros i ss post path v Hss Hpost.
  - destruct ss; [done|discriminate].
  - destruct ss as [|s ss _] using rev_ind; [discriminate|].
    rewrite length_app in Hss. cbn [length] in Hss.
    assert (pre ++ (ss ++ [s]) ++ post = (pre ++ ss) ++ s :: post) as Elist
      by (now rewrite <- !app_assoc).
    cbn [Eager.verify_loop low_flags]. unfold Eager.index_from_end, index.
    rewrite Elist, length_app. cbn [length].
    rewrite decide_True by (rewrite length_app; lia).
    replace (length (pre ++ ss) + S (length post) - 1 - i)%nat
      with (length (pre ++ ss)) by lia.
    rewrite list_lookup_middle by done.
    cbn [mbind result_bind].
    rewrite <- (app_assoc pre).
    rewrite (IH (S i) ss (s :: post)) by (cbn [length]; lia).
    rewrite reverse_cons, zip_with_app
      by (rewrite length_reverse, length_low_flags; lia).
    cbn [zip_with]. rewrite graft_snoc. unfold node_of.
    now destruct (truthy (Z.land path 1)).
Qed.

(** In a store whose entries sit under their own digests, the proof made
    for a key verifies the value that [get] reads at that key. *)
Theorem eager_proof_verifies db root key proof value :
  wf_store sha3 db →
  Eager.make_merkle_proof db root key = Ok proof →
  Eager.get db root key = Ok value →
  Eager.verify_proof sha3 proof root key value = Ok true.
Proof.
  intros Hwf Hproof Hget.
  rewrite eager_make_merkle_proof_siblings in Hproof.
  unfold Eager.get in Hget. rewrite eager_get_loop_descend in Hget.
  pose proof (length_siblings _ _ _ _ Hproof) as Hlen.
  rewrite length_path_flags in Hlen.
  unfold Eager.verify_proof.
  pose proof (verify_loop_graft 256 0 [] proof [] (Eager.key_to_path key) value Hlen eq_refl)
    as Hloop.
  rewrite app_nil_l, app_nil_r in Hloop. rewrite Hloop.
  cbn [mbind result_bind].
  rewrite low_flags_reverse, reverse_involutive.
  rewrite (graft_siblings sha3 db root _ proof value Hwf Hproof Hget).
  now rewrite bool_decide_eq_true_2.
Qed.

(** C4. When the last update of a history wrote [value] at [key], the proof
    made for [key] in its tree verifies [value] against its root. *)
Theorem eager_proof_soundness history db root key value :
  eager_run sha3 ((key, value) :: history) db root →
  ∃ proof,
    Eager.make_merkle_proof db root key = Ok proof
    ∧ Eager.verify_proof sha3 proof root key value = Ok true.
Proof.
  intros Hrun.
  destruct (eager_run_wf _ _ _ Hrun) as [Hwf Hcl].
  assert (length key = 32%nat) as Hk by (inversion Hrun; done).
  destruct (closed_siblings 256 db root (flags key) Hcl (length_path_flags _ _))
    as [proof Hproof].
  rewrite <- eager_make_merkle_proof_siblings in Hproof.
  exists proof. split; [done|].
  apply (eager_proof_verifies db root key proof value Hwf Hproof).
  rewrite (eager_get_latest _ _ _ key Hrun Hk). cbn [latest].
  now rewrite decide_True.
Qed.

End EagerRuns.

(** ** Checking a history by running it *)

Lemma length_toy_sha3 x : length (toy_sha3 x) = 32%nat.
Proof. apply length_to_bytes_big. Qed.

Section EagerReplayFacts.

Variable sha3 : bytes → bytes.
Hypothesis sha3_len : ∀ x, length (sha3 x) = 32%nat.

Lemma collision_free_from_spec l seen :
  (∀ h y, seen !! h = Some y → sha3 y = h) →
  collision_free_from sha3 l seen = true →
  ∀ x y, x ∈ l → y ∈ l ∨ stored seen y → sha3 x = sha3 y → x = y.
Proof.
  revert seen. induction l as [|x0 l IH]; intros seen Hseen Hgo x y Hx Hy Heq.
  - inversion Hx.
  - cbn [collision_free_from] in Hgo. cbv zeta in Hgo.
    destruct (seen !! sha3 x0) as [y0|] eqn:E.
    + apply andb_true_iff in Hgo as [Hx0 Hgo].
      apply bool_decide_eq_true_1 in Hx0 as <-.
      assert (∀ z, stored seen z → sha3 z = sha3 x0 → z = x0) as Hst.
      { intros z [h Hz] Hzq. pose proof (Hseen _ _ Hz) as Hh.
        rewrite <- Hh, Hzq, E in Hz. now injection Hz. }
      assert (stored seen x0) as Hsx by now exists (sha3 x0).
      apply elem_of_cons in Hx as [->|Hx].
      * destruct Hy as [Hy|Hy]; [|now symmetry; apply Hst].
        apply elem_of_cons in Hy as [->|Hy]; [done|].
        symmetry. apply (IH seen Hseen Hgo y x0); auto.
      * destruct Hy as [Hy|Hy]; [|apply (IH seen Hseen Hgo x y); auto].
        apply elem_of_cons in Hy as [->|Hy]; apply (IH seen Hseen Hgo); auto.
    + assert (∀ h z, <[sha3 x0:=x0]> seen !! h = Some z → sha3 z = h) as Hseen'.
      { intros h z. destruct (decide (sha3 x0 = h)) as [<-|Hne].
        - rewrite lookup_insert_eq. now intros [= <-].
        - rewrite lookup_insert_ne by done. apply Hseen. }
      assert (stored (<[sha3 x0:=x0]> seen) x0) as Hsx
        by (exists (sha3 x0); apply lookup_insert_eq).
      assert (∀ z, stored seen z → stored (<[sha3 x0:=x0]> seen) z) as Hmono.
      { intros z [h Hz]. exists h. rewrite lookup_insert_ne; [done|].
        intros <-. rewrite E in Hz. discriminate. }
      apply elem_of_cons in Hx as [->|Hx].
      * destruct Hy as [Hy|[h Hy]].
        -- apply elem_of_cons in Hy as [->|Hy]; [done|].
           symmetry. apply (IH _ Hseen' Hgo y x0); auto.
        -- pose proof (Hseen _ _ Hy) as Hh. rewrite <- Hh, <- Heq, E in Hy.
           discriminate.
      * destruct Hy as [Hy|Hy]; [|apply (IH _ Hseen' Hgo x y); auto].
        apply elem_of_cons in Hy as [->|Hy]; apply (IH _ Hseen' Hgo); auto.
Qed.

Lemma collision_freeb_spec l :
  collision_freeb sha3 l = true → collision_free sha3 (λ c, c ∈ l).
Proof.
  intros H x y Hx Hy. apply (collision_free_from_spec l ∅); auto.
  intros h z Hz. inversion Hz.
Qed.

Lemma eager_replay_cons key value history :
  eager_replay sha3 ((key, value) :: history) =
  '(db, root, nodes) ← eager_replay sha3 history;
  '(db', root') ← Eager.update sha3 db root key value;
  Ok (db', root', eager_update_nodes sha3 db root key value ++ nodes).
Proof. reflexivity. Qed.

Lemma eager_replay_cons_inv key value history db root nodes :
  eager_replay sha3 ((key, value) :: history) = Ok (db, root, nodes) →
  ∃ db0 root0 nodes0,
    eager_replay sha3 history = Ok (db0, root0, nodes0)
    ∧ Eager.update sha3 db0 root0 key value = Ok (db, root)
    ∧ nodes = eager_update_nodes sha3 db0 root0 key value ++ nodes0.
Proof.
  intros Hrep. rewrite eager_replay_cons in Hrep.
  apply bind_Ok_inv in Hrep as ([[db0 root0] nodes0] & Hh & Hrep).
  apply bind_Ok_inv in Hrep as ([db1 root1] & Hupd & Hrep).
  exists db0, root0, nodes0.
  remember (eager_update_nodes sha3 db0 root0 key value) as un eqn:Eun.
  assert (db1 = db ∧ root1 = root ∧ un ++ nodes0 = nodes) as (-> & -> & <-)
    by (injection Hrep; auto).
  auto.
Qed.

Lemma eager_replay_nil_inv db root nodes :
  eager_replay sha3 [] = Ok (db, root, nodes) →
  db = (Eager.new_tree sha3 ∅).1 ∧ root = (Eager.new_tree sha3 ∅).2
  ∧ nodes = zero_nodes sha3.
Proof.
  intros Hrep. cbn [eager_replay] in Hrep. cbv zeta in Hrep.
  remember (Eager.new_tree sha3 ∅) as new eqn:Enew.
  remember (zero_nodes sha3) as zn eqn:Ezn.
  injection Hrep as <- <- <-. auto.
Qed.

(** A history that replays without a collision among all the nodes it puts
    is a history of [eager_run]. *)
Lemma eager_replay_run history db root nodes :
  Forall (λ kv, length kv.1 = 32%nat ∧ length kv.2 = 32%nat) history →
  eager_replay sha3 history = Ok (db, root, nodes) →
  collision_free sha3 (λ c, c ∈ nodes) →
  eager_run sha3 history db root ∧ ∀ c, stored db c → c ∈ nodes.
Proof.
  intros Hlens. revert db root nodes.
  induction Hlens as [|[key value] history [Hk Hv] _ IH]; intros db root nodes Hrep Hcf.
  - apply eager_replay_nil_inv in Hrep as (-> & -> & ->). split.
    + now apply eager_run_new.
    + intros c [h Hc]. rewrite eager_new_tree_put_nodes in Hc by done.
      cbn [fst] in Hc.
      apply put_nodes_lookup_inv in Hc as [Hc|[Hc _]]; [inversion Hc|done].
  - apply eager_replay_cons_inv in Hrep as (db0 & root0 & nodes0 & Hh & Hupd & ->).
    destruct (IH db0 root0 nodes0 Hh) as [Hrun Hstored].
    { eapply collision_free_weaken; [|exact Hcf].
      intros x Hx. apply elem_of_app. now right. }
    split.
    + eapply eager_run_update; [exact Hrun|exact Hk|exact Hv| |exact Hupd].
      eapply collision_free_weaken; [|exact Hcf].
      intros x [Hx|Hx]; apply elem_of_app; [right|left]; auto.
    + intros c [h Hc]. rewrite (eager_update_nodes_put _ _ _ _ _ _ _ Hupd) in Hc.
      apply elem_of_app.
      apply put_nodes_lookup_inv in Hc as [Hc|[Hc _]]; [right|left]; eauto.
      apply Hstored. now exists h.
Qed.

End EagerReplayFacts.

Lemma expect_Ok3 {A B C} (d : A * B * C) (r : result (A * B * C)) :
  is_Ok r = true → r = Ok ((expect d r).1.1, (expect d r).1.2, (expect d r).2).
Proof. destruct r as [[[a b] c]|e]; [reflexivity|discriminate]. Qed.

Lemma eager_one_leaf_replay :
  eager_replay toy_sha3 [(key_01, value_11)] =
  Ok (eager_one_leaf.1.1, eager_one_leaf.1.2, eager_one_leaf.2).
Proof.
  assert (is_Ok (eager_replay toy_sha3 [(key_01, value_11)]) = true) as H
    by (vm_compute; reflexivity).
  exact (expect_Ok3 (∅, [], []) (eager_replay toy_sha3 [(key_01, value_11)]) H).
Qed.

Lemma eager_one_leaf_collision_free :
  collision_free toy_sha3 (λ c, c ∈ eager_one_leaf.2).
Proof. apply collision_freeb_spec. vm_compute. reflexivity. Qed.

Lemma eager_one_leaf_run :
  eager_run toy_sha3 [(key_01, value_11)] eager_one_leaf.1.1 eager_one_leaf.1.2.
Proof.
  refine (proj1 (eager_replay_run toy_sha3 _ _ _ eager_one_leaf.2 _
                   eager_one_leaf_replay eager_one_leaf_collision_free)).
  repeat constructor.
Qed.

Lemma eager_proof_soundness_witness :
  ∃ proof,
    Eager.make_merkle_proof eager_one_leaf.1.1 eager_one_leaf.1.2 key_01 = Ok proof
    ∧ Eager.verify_proof toy_sha3 proof eager_one_leaf.1.2 key_01 value_11 = Ok true.
Proof.
  exact (eager_proof_soundness toy_sha3 length_toy_sha3 [] _ _ key_01 value_11
           eager_one_leaf_run).
Defined.

(** ** The compact engine: shifted paths *)

Lemma top_bit_mod p : top_bit (p mod 2 ^ 256) = top_bit p.
Proof. rewrite !top_bit_testbit. apply Z.mod_pow2_bits_low. lia. Qed.

Lemma shiftl_mod p : ((p mod 2 ^ 256) ≪ 1) mod 2 ^ 256 = (p ≪ 1) mod 2 ^ 256.
Proof.
  rewrite !Z.shiftl_mul_pow2 by lia. apply Z.mul_mod_idemp_l. lia.
Qed.

Lemma aligned_0 p : aligned 0 (p mod 2 ^ 256).
Proof.
  split; [apply Z.mod_pos_bound; lia|]. apply Z.mod_1_r.
Qed.

Lemma aligned_256 q : aligned 256 q → q = 0.
Proof.
  intros [Hr Hm]. change (Z.of_nat 256) with 256 in Hm.
  now rewrite Z.mod_small in Hm.
Qed.

Lemma aligned_shift d q :
  (d < 256)%nat → aligned d q → aligned (S d) ((q ≪ 1) mod 2 ^ 256).
Proof.
  intros Hd [Hr Hm]. split; [apply Z.mod_pos_bound; lia|].
  assert (0 < 2 ^ Z.of_nat d) as Hpos by (apply Z.pow_pos_nonneg; lia).
  apply Z.mod_divide in Hm as [k Hk]; [|lia].
  rewrite Nat2Z.inj_succ, Z.pow_succ_r by lia.
  apply Z.mod_divide; [lia|].
  rewrite Z.shiftl_mul_pow2, Z.mod_eq by lia.
  apply Z.divide_sub_r.
  - exists k. rewrite Hk. change (2 ^ 1) with 2. lia.
  - apply Z.divide_mul_l.
    exists (2 ^ (255 - Z.of_nat d)).
    replace 256 with (255 - Z.of_nat d + (1 + Z.of_nat d)) at 1 by lia.
    rewrite Z.pow_add_r, Z.pow_add_r by lia. change (2 ^ 1) with 2. lia.
Qed.

Lemma split_path q p :
  0 ≤ q < 2 ^ 256 → 0 ≤ p < 2 ^ 256 →
  top_bit q = top_bit p →
  (q ≪ 1) mod 2 ^ 256 = (p ≪ 1) mod 2 ^ 256 → q = p.
Proof.
  intros Hq Hp Htop Hlow. rewrite !top_bit_testbit in Htop.
  apply Z.bits_inj'. intros n Hn.
  destruct (decide (n < 255)) as [Hlt|Hge].
  - assert (Z.testbit ((q ≪ 1) mod 2 ^ 256) (n + 1)
            = Z.testbit ((p ≪ 1) mod 2 ^ 256) (n + 1)) as Hb by now rewrite Hlow.
    rewrite !Z.mod_pow2_bits_low, !Z.shiftl_spec in Hb by lia.
    now replace (n + 1 - 1) with n in Hb by lia.
  - destruct (decide (n = 255)) as [->|Hne]; [done|].
    rewrite <- (Z.mod_small q (2 ^ 256)), <- (Z.mod_small p (2 ^ 256)) by done.
    now rewrite !Z.mod_pow2_bits_high by lia.
Qed.

Lemma key_to_path_to_key p :
  Compact.key_to_path (Compact.path_to_key p) = p mod 2 ^ 256.
Proof.
  unfold Compact.key_to_path, Compact.path_to_key, Compact.tt256m1.
  rewrite from_to_bytes_big. change (8 * Z.of_nat 32) with 256.
  change (2 ^ 256 - 1) with (Z.ones 256). rewrite Z.land_ones by lia.
  apply Z.mod_mod. lia.
Qed.

Lemma length_path_to_key p : length (Compact.path_to_key p) = 32%nat.
Proof. apply length_to_bytes_big. Qed.

(** ** The compact engine: the store after the puts *)

Lemma put_all_app W1 W2 db : put_all (W1 ++ W2) db = put_all W2 (put_all W1 db).
Proof. apply fold_left_app. Qed.

Lemma put_all_sound W db :
  (∀ w c, w ∈ W → db !! write_digest w = Some c → c = write_node w) →
  (∀ w w', w ∈ W → w' ∈ W → write_digest w = write_digest w' →
           write_node w = write_node w') →
  db ⊆ put_all W db
  ∧ ∀ w, w ∈ W → put_all W db !! write_digest w = Some (write_node w).
Proof.
  revert db. induction W as [|w W IH]; intros db Hold Hnew.
  - split; [done|]. intros w Hw. inversion Hw.
  - change (put_all (w :: W) db)
      with (put_all W (<[write_digest w := write_node w]> db)).
    destruct (IH (<[write_digest w := write_node w]> db)) as [Hsub Hin].
    + intros w' c Hw' Hc.
      destruct (decide (write_digest w = write_digest w')) as [He|Hne].
      * rewrite <- He, lookup_insert_eq in Hc. injection Hc as <-.
        apply Hnew; [left|now right|done].
      * rewrite lookup_insert_ne in Hc by done. apply Hold; [now right|done].
    + intros w1 w2 H1 H2. apply Hnew; now right.
    + split.
      * etrans; [|exact Hsub]. apply map_subseteq_spec. intros h c Hc.
        destruct (decide (write_digest w = h)) as [<-|Hne].
        -- rewrite lookup_insert_eq. f_equal. symmetry. apply (Hold w); [left|done].
        -- now rewrite lookup_insert_ne.
      * intros w' Hw'. apply elem_of_cons in Hw' as [->|Hw']; [|now apply Hin].
        eapply map_subseteq_spec; [exact Hsub|]. apply lookup_insert_eq.
Qed.

Lemma put_all_dom W db h : is_Some (db !! h) → is_Some (put_all W db !! h).
Proof.
  revert db. induction W as [|w W IH]; intros db Hh; [done|].
  apply IH. unfold db_put. destruct (decide (write_digest w = h)) as [<-|Hne].
  - rewrite lookup_insert_eq. eauto.
  - now rewrite lookup_insert_ne.
Qed.

Section CompactTraces.

Variable sha3 : bytes → bytes.

Local Abbreviation zh := (zerohash sha3).
Local Abbreviation msk := (Compact.make_single_key_hash sha3).

Lemma mdkh_trace_S fuel p1 p2 d v1 v2 :
  mdkh_trace sha3 (S fuel) p1 p2 d v1 v2 =
  if (d =? 256)%nat then Raise SlotException
  else if top_bit p1 then
    if top_bit p2 then
      '(W, h) ← mdkh_trace sha3 fuel (p1 ≪ 1) (p2 ≪ 1) (d + 1) v1 v2;
      Ok (W ++ [(d, sha3 (zh (d + 1) ++ h), zh (d + 1) ++ h)], sha3 (zh (d + 1) ++ h))
    else
      Ok ([((d + 1)%nat, msk (p2 ≪ 1) (d + 1) v2, Compact.single_leaf_node (p2 ≪ 1) v2);
           ((d + 1)%nat, msk (p1 ≪ 1) (d + 1) v1, Compact.single_leaf_node (p1 ≪ 1) v1);
           (d, sha3 (msk (p2 ≪ 1) (d + 1) v2 ++ msk (p1 ≪ 1) (d + 1) v1),
            msk (p2 ≪ 1) (d + 1) v2 ++ msk (p1 ≪ 1) (d + 1) v1)],
          sha3 (msk (p2 ≪ 1) (d + 1) v2 ++ msk (p1 ≪ 1) (d + 1) v1))
  else
    if top_bit p2 then
      Ok ([((d + 1)%nat, msk (p1 ≪ 1) (d + 1) v1, Compact.single_leaf_node (p1 ≪ 1) v1);
           ((d + 1)%nat, msk (p2 ≪ 1) (d + 1) v2, Compact.single_leaf_node (p2 ≪ 1) v2);
           (d, sha3 (msk (p1 ≪ 1) (d + 1) v1 ++ msk (p2 ≪ 1) (d + 1) v2),
            msk (p1 ≪ 1) (d + 1) v1 ++ msk (p2 ≪ 1) (d + 1) v2)],
          sha3 (msk (p1 ≪ 1) (d + 1) v1 ++ msk (p2 ≪ 1) (d + 1) v2))
    else
      '(W, h) ← mdkh_trace sha3 fuel (p1 ≪ 1) (p2 ≪ 1) (d + 1) v1 v2;
      Ok (W ++ [(d, sha3 (h ++ zh (d + 1)), h ++ zh (d + 1))], sha3 (h ++ zh (d + 1))).
Proof. reflexivity. Qed.

Lemma update_trace_S fuel db root path d value :
  update_trace sha3 (S fuel) db root path d value =
  if (d =? 256)%nat then Ok ([], value)
  else if bool_decide (root = zh d) then
    Ok ([(d, msk path d value, Compact.single_leaf_node path value)], msk path d value)
  else
    child ← subscriptable (db_get db root);
    if bool_decide (length child = 65%nat) then
      mdkh_trace sha3 (256 - d) path (Compact.key_to_path (take 32 (drop 1 child))) d
        value (drop 33 child)
    else if top_bit path then
      '(W, h) ← update_trace sha3 fuel db (drop 32 child) (path ≪ 1) (d + 1) value;
      Ok (W ++ [(d, sha3 (take 32 child ++ h), take 32 child ++ h)],
          sha3 (take 32 child ++ h))
    else
      '(W, h) ← update_trace sha3 fuel db (take 32 child) (path ≪ 1) (d + 1) value;
      Ok (W ++ [(d, sha3 (h ++ drop 32 child), h ++ drop 32 child)],
          sha3 (h ++ drop 32 child)).
Proof. reflexivity. Qed.

Lemma update_trace_0 db root path d value :
  update_trace sha3 0 db root path d value =
  if (d =? 256)%nat then Ok ([], value)
  else if bool_decide (root = zh d) then
    Ok ([(d, msk path d value, Compact.single_leaf_node path value)], msk path d value)
  else
    child ← subscriptable (db_get db root);
    if bool_decide (length child = 65%nat) then
      mdkh_trace sha3 (256 - d) path (Compact.key_to_path (take 32 (drop 1 child))) d
        value (drop 33 child)
    else Raise RecursionError.
Proof. reflexivity. Qed.

(** [make_double_key_hash] returns the digest of its trace and the store
    after the puts of its trace. *)
Lemma mdkh_rec_trace fuel db p1 p2 d v1 v2 :
  Compact.make_double_key_hash_rec sha3 fuel db p1 p2 d v1 v2 =
  '(W, h) ← mdkh_trace sha3 fuel p1 p2 d v1 v2; Ok (put_all W db, h).
Proof.
  revert db p1 p2 d. induction fuel as [|fuel IH]; intros db p1 p2 d.
  - cbn [Compact.make_double_key_hash_rec mdkh_trace]. now destruct (d =? 256)%nat.
  - rewrite mdkh_rec_S, mdkh_trace_S.
    destruct (d =? 256)%nat; [done|].
    destruct (top_bit p1), (top_bit p2); try reflexivity.
    + rewrite IH. destruct (mdkh_trace sha3 fuel _ _ _ _ _) as [[W h]|e]; [|done].
      cbn [mbind result_bind]. cbv zeta. now rewrite put_all_app.
    + rewrite IH. destruct (mdkh_trace sha3 fuel _ _ _ _ _) as [[W h]|e]; [|done].
      cbn [mbind result_bind]. cbv zeta. now rewrite put_all_app.
Qed.

Lemma _update_rec_trace fuel db root path d value :
  Compact._update_rec sha3 fuel db root path d value =
  '(W, h) ← update_trace sha3 fuel db root path d value; Ok (put_all W db, h).
Proof.
  revert root path d. induction fuel as [|fuel IH]; intros root path d.
  - rewrite update_trace_0. cbn [Compact._update_rec].
    destruct (d =? 256)%nat; [done|].
    change (nth d (zerohashes_table sha3) []) with (zh d).
    destruct (bool_decide (root = zh d)); [done|].
    destruct (db_get db root) as [child|]; [|done]. cbn [subscriptable mbind result_bind].
    destruct (bool_decide (length child = 65%nat)); [|done].
    apply mdkh_rec_trace.
  - rewrite _update_rec_S, update_trace_S.
    destruct (d =? 256)%nat; [done|].
    destruct (bool_decide (root = zh d)); [done|].
    destruct (db_get db root) as [child|]; [|done]. cbn [subscriptable mbind result_bind].
    destruct (bool_decide (length child = 65%nat)); [apply mdkh_rec_trace|].
    destruct (top_bit path); rewrite IH;
      (destruct (update_trace sha3 fuel _ _ _ _ _) as [[W h]|e]; [|done]);
      cbn [mbind result_bind]; cbv zeta; now rewrite put_all_app.
Qed.

(** [update] returns the digest of its trace and the store after its puts. *)
Lemma compact_update_trace db root key value db' root' :
  Compact.update sha3 db root key value = Ok (db', root') →
  update_trace sha3 256 db root (Compact.key_to_path key) 0 value
    = Ok (compact_update_writes sha3 db root key value, root')
  ∧ db' = put_all (compact_update_writes sha3 db root key value) db.
Proof.
  unfold Compact.update, Compact._update, compact_update_writes.
  change (256 - 0)%nat with 256%nat. rewrite _update_rec_trace.
  destruct (update_trace sha3 256 _ _ _ _ _) as [[W h]|e]; [|done].
  cbn [mbind result_bind]. now intros [= <- <-].
Qed.

End CompactTraces.

(** ** The compact engine: the subtree behind a digest *)

Lemma single_leaf_key p v :
  take 32 (drop 1 (Compact.single_leaf_node p v)) = Compact.path_to_key p.
Proof.
  unfold Compact.single_leaf_node. cbn [drop].
  apply take_app_length'. apply (length_path_to_key p).
Qed.

Lemma single_leaf_value p v : drop 33 (Compact.single_leaf_node p v) = v.
Proof.
  unfold Compact.single_leaf_node. change 33%nat with (S 32). cbn [drop].
  apply drop_app_length'. apply (length_path_to_key p).
Qed.

Lemma length_single_leaf_node p v :
  length v = 32%nat → length (Compact.single_leaf_node p v) = 65%nat.
Proof.
  intros Hv. unfold Compact.single_leaf_node. cbn [length].
  rewrite length_app, length_path_to_key, Hv. done.
Qed.

(** The test [q == p] on shifted paths, split into the top bit and the rest. *)
Lemma path_eq_split q p :
  0 ≤ q < 2 ^ 256 →
  bool_decide (q = p mod 2 ^ 256)
  = eqb (top_bit q) (top_bit p)
    && bool_decide ((q ≪ 1) mod 2 ^ 256 = (p ≪ 1) mod 2 ^ 256).
Proof.
  intros Hq. destruct (decide (q = p mod 2 ^ 256)) as [->|Hne].
  - rewrite bool_decide_eq_true_2 by done.
    rewrite top_bit_mod, eqb_reflx, shiftl_mod. now rewrite bool_decide_eq_true_2.
  - rewrite bool_decide_eq_false_2 by done. symmetry. apply andb_false_iff.
    destruct (eqb (top_bit q) (top_bit p)) eqn:Et; [right|now left].
    apply bool_decide_eq_false_2. intros Hlow. apply Hne.
    apply split_path; [done|apply Z.mod_pos_bound; lia| |].
    + rewrite top_bit_mod. now apply eqb_prop.
    + now rewrite shiftl_mod.
Qed.

Section CompactTrees.

Variable sha3 : bytes → bytes.
Hypothesis sha3_len : ∀ x, length (sha3 x) = 32%nat.

Local Abbreviation zh := (zerohash sha3).
Local Abbreviation msk := (Compact.make_single_key_hash sha3).
Local Abbreviation crep := (crep sha3).

Lemma crep_ext db d h t t' :
  crep db d h t → (∀ q, aligned d q → t' q = t q) → crep db d h t'.
Proof.
  intros H Ht. destruct H as [v t Hv H|d t Hd H|d h c t Hd Hh Hc Hl Ha H
                              |d h c tl tr t Hd Hh Hc Hl Hcl Hcr H].
  - apply crep_leaf; [done|]. intros q Hq. now rewrite Ht, H.
  - apply crep_zero; [done|]. intros q Hq. now rewrite Ht, H.
  - apply (crep_single sha3 db d h c); try done. intros q Hq. now rewrite Ht, H.
  - apply (crep_node sha3 db d h c tl tr); try done. intros q Hq. now rewrite Ht, H.
Qed.

Lemma crep_mono db db' d h t : db ⊆ db' → crep db d h t → crep db' d h t.
Proof.
  intros Hsub H.
  induction H as [v t Hv H|d t Hd H|d h c t Hd Hh Hc Hl Ha H
                  |d h c tl tr t Hd Hh Hc Hl Hcl IHl Hcr IHr H].
  - now apply crep_leaf.
  - now apply crep_zero.
  - apply (crep_single sha3 db' d h c); try done.
    eapply map_subseteq_spec; [exact Hsub|exact Hc].
  - apply (crep_node sha3 db' d h c tl tr); try done.
    eapply map_subseteq_spec; [exact Hsub|exact Hc].
Qed.

(** The zero hash of a depth stands for the empty subtree. *)
Lemma crep_zh db d t :
  (d ≤ 256)%nat → (∀ q, aligned d q → t q = zero32) → crep db d (zh d) t.
Proof.
  intros Hd Ht. destruct (decide (d = 256%nat)) as [->|Hne].
  - rewrite zerohash_256. now apply crep_leaf.
  - apply crep_zero; [lia|done].
Qed.

Lemma crep_zh_inv db d h t :
  crep db d h t → h = zh d → ∀ q, aligned d q → t q = zero32.
Proof.
  intros H Hh. destruct H as [v t Hv H|d t Hd H|d h c t Hd Hne Hc Hl Ha H
                              |d h c tl tr t Hd Hne Hc Hl Hcl Hcr H]; try done.
  rewrite zerohash_256 in Hh. intros q Hq. now rewrite H, Hh.
Qed.

(** [get], from depth [d] on, reads the value that the subtree gives the
    rest of the path. *)
Lemma compact_get_loop_crep db d h t :
  crep db d h t →
  ∀ path, aligned d (path mod 2 ^ 256) →
    Compact.get_loop sha3 (256 - d) d db h path = Ok (t (path mod 2 ^ 256)).
Proof.
  intros H.
  induction H as [v t Hv H|d t Hd H|d h c t Hd Hne Hc Hl Ha H
                  |d h c tl tr t Hd Hne Hc Hl Hcl IHl Hcr IHr H]; intros path Hp.
  - rewrite H by done. reflexivity.
  - replace (256 - d)%nat with (S (255 - d)) by lia.
    rewrite compact_get_loop_S, bool_decide_eq_true_2 by done. now rewrite H.
  - replace (256 - d)%nat with (S (255 - d)) by lia.
    rewrite compact_get_loop_S, bool_decide_eq_false_2 by done.
    unfold db_get. rewrite Hc. cbn [subscriptable mbind result_bind].
    rewrite bool_decide_eq_true_2 by done. rewrite H by done.
    now destruct (bool_decide _).
  - replace (256 - d)%nat with (S (255 - d)) by lia.
    rewrite compact_get_loop_S, bool_decide_eq_false_2 by done.
    unfold db_get. rewrite Hc. cbn [subscriptable mbind result_bind].
    rewrite bool_decide_eq_false_2 by (rewrite Hl; lia).
    rewrite H, top_bit_mod, shiftl_mod by done.
    assert (aligned (S d) ((path ≪ 1) mod 2 ^ 256)) as Hp'
      by (rewrite <- shiftl_mod; now apply aligned_shift).
    replace (255 - d)%nat with (256 - S d)%nat by lia.
    destruct (top_bit path); [now apply IHr|now apply IHl].
Qed.

(** The digest of a single-leaf subtree stands for it, once its node is in
    the store. *)
Lemma crep_msk db d p v :
  (d ≤ 256)%nat → length v = 32%nat → aligned d (p mod 2 ^ 256) →
  ((d < 256)%nat → msk p d v ≠ zh d →
   db !! msk p d v = Some (Compact.single_leaf_node p v)) →
  ((d < 256)%nat → msk p d v = zh d → v = zero32) →
  crep db d (msk p d v) (λ q, if bool_decide (q = p mod 2 ^ 256) then v else zero32).
Proof.
  intros Hd Hv Hp Hdb Hz. destruct (decide (d = 256%nat)) as [->|Hne].
  - rewrite msk_256. apply crep_leaf; [done|]. intros q Hq.
    apply aligned_256 in Hq, Hp. now rewrite Hq, Hp, bool_decide_eq_true_2.
  - destruct (decide (msk p d v = zh d)) as [He|Hnz].
    + rewrite He. apply crep_zero; [lia|]. intros q _.
      rewrite (Hz ltac:(lia) He). now destruct (bool_decide _).
    + apply (crep_single sha3 db d _ (Compact.single_leaf_node p v)).
      * lia.
      * done.
      * apply Hdb; [lia|done].
      * now apply length_single_leaf_node.
      * now rewrite single_leaf_key, key_to_path_to_key.
      * intros q _. now rewrite single_leaf_key, key_to_path_to_key, single_leaf_value.
Qed.

(** The digest of a node stands for the subtree of its two children, once
    the node is in the store. *)
Lemma crep_join db d l r tl tr :
  (d < 256)%nat → length l = 32%nat → length r = 32%nat →
  crep db (S d) l tl → crep db (S d) r tr →
  (sha3 (l ++ r) ≠ zh d → db !! sha3 (l ++ r) = Some (l ++ r)) →
  (sha3 (l ++ r) = zh d → l ++ r = zh (S d) ++ zh (S d)) →
  crep db d (sha3 (l ++ r))
    (λ q, (if top_bit q then tr else tl) ((q ≪ 1) mod 2 ^ 256)).
Proof.
  intros Hd Hl Hr Hcl Hcr Hdb Hz.
  destruct (decide (sha3 (l ++ r) = zh d)) as [He|Hne].
  - rewrite He. apply crep_zero; [done|]. intros q Hq.
    apply Hz in He. apply app_inj_1 in He as [-> ->];
      [|now rewrite Hl, length_zerohash by (done || lia)].
    pose proof (aligned_shift d q Hd Hq) as Hq'.
    destruct (top_bit q);
      [apply (crep_zh_inv _ _ _ _ Hcr)|apply (crep_zh_inv _ _ _ _ Hcl)]; done.
  - apply (crep_node sha3 db d _ (l ++ r) tl tr); try done.
    + now apply Hdb.
    + rewrite length_app. lia.
    + now rewrite take_app_length'.
    + now rewrite drop_app_length'.
Qed.

End CompactTrees.

Section CompactUpdates.

Variable sha3 : bytes → bytes.
Hypothesis sha3_len : ∀ x, length (sha3 x) = 32%nat.

Local Abbreviation zh := (zerohash sha3).
Local Abbreviation msk := (Compact.make_single_key_hash sha3).
Local Abbreviation crep := (crep sha3).

(** The subtree behind the digest of a put, in a store that holds the put. *)
Lemma crep_put_single db d p v :
  (d ≤ 256)%nat → length v = 32%nat → aligned d (p mod 2 ^ 256) →
  db !! msk p d v = Some (Compact.single_leaf_node p v) →
  zero_safe sha3 (d, msk p d v, Compact.single_leaf_node p v) →
  crep db d (msk p d v) (λ q, if bool_decide (q = p mod 2 ^ 256) then v else zero32).
Proof.
  intros Hd Hv Hp Hdb Hz. apply (crep_msk sha3 db d p v Hd Hv Hp).
  - intros _ _. exact Hdb.
  - intros Hlt He. destruct (Hz Hlt He) as [[_ H]|H].
    + unfold write_node in H. cbn [snd] in H. now rewrite single_leaf_value in H.
    + apply (f_equal length) in H. unfold write_node, write_depth in H.
      cbn [fst snd] in H.
      rewrite length_single_leaf_node, length_app, !length_zerohash in H by (done || lia).
      lia.
Qed.

Lemma crep_put_node db d l r tl tr :
  (d < 256)%nat → length l = 32%nat → length r = 32%nat →
  crep db (S d) l tl → crep db (S d) r tr →
  db !! sha3 (l ++ r) = Some (l ++ r) →
  zero_safe sha3 (d, sha3 (l ++ r), l ++ r) →
  crep db d (sha3 (l ++ r))
    (λ q, (if top_bit q then tr else tl) ((q ≪ 1) mod 2 ^ 256)).
Proof.
  intros Hd Hl Hr Hcl Hcr Hdb Hz.
  apply (crep_join sha3 sha3_len db d l r tl tr Hd Hl Hr Hcl Hcr).
  - intros _. exact Hdb.
  - intros He. destruct (Hz Hd He) as [[H _]|H]; [|done].
    unfold write_node in H. cbn [snd] in H. rewrite length_app in H. lia.
Qed.

(** The digest returned by [make_double_key_hash] stands for the subtree of
    its two leaves, in any store that holds its puts. *)
Lemma mdkh_trace_crep db' d p1 p2 v1 v2 W h :
  (d ≤ 256)%nat →
  mdkh_trace sha3 (256 - d) p1 p2 d v1 v2 = Ok (W, h) →
  length v1 = 32%nat → length v2 = 32%nat →
  aligned d (p1 mod 2 ^ 256) → aligned d (p2 mod 2 ^ 256) →
  (∀ w, w ∈ W → db' !! write_digest w = Some (write_node w)) →
  Forall (zero_safe sha3) W →
  length h = 32%nat
  ∧ crep db' d h (λ q, if bool_decide (q = p1 mod 2 ^ 256) then v1
                       else if bool_decide (q = p2 mod 2 ^ 256) then v2
                       else zero32).
Proof.
  intros Hd. remember (256 - d)%nat as n eqn:Hn.
  revert d p1 p2 W h Hd Hn.
  induction n as [|n IH]; intros d p1 p2 W h Hd Hn Htr Hv1 Hv2 Hp1 Hp2 Hin Hz.
  - replace d with 256%nat in Htr by lia. discriminate Htr.
  - rewrite mdkh_trace_S in Htr. destruct (Nat.eqb_spec d 256) as [|Hne]; [lia|].
    rewrite !Nat.add_1_r in Htr.
    assert (d < 256)%nat as Hlt by lia.
    assert (S d ≤ 256)%nat as Hle by lia.
    assert (aligned (S d) ((p1 ≪ 1) mod 2 ^ 256)) as Hp1'
      by (rewrite <- shiftl_mod; now apply aligned_shift).
    assert (aligned (S d) ((p2 ≪ 1) mod 2 ^ 256)) as Hp2'
      by (rewrite <- shiftl_mod; now apply aligned_shift).
    pose proof (length_zerohash sha3 (S d) sha3_len Hle) as Hzl.
    pose proof (crep_zh sha3 db' (S d) (λ _, zero32) Hle (λ _ _, eq_refl)) as Hzc.
    pose proof (length_msk sha3 (p1 ≪ 1) (S d) v1 sha3_len Hv1) as Hl1.
    pose proof (length_msk sha3 (p2 ≪ 1) (S d) v2 sha3_len Hv2) as Hl2.
    destruct (top_bit p1) eqn:E1, (top_bit p2) eqn:E2.
    + apply bind_Ok_inv in Htr as ([W1 h1] & Htr1 & Hret).
      injection Hret as <- <-.
      apply Forall_app in Hz as [Hz1 Hz]. apply Forall_inv in Hz.
      assert (∀ w, w ∈ W1 → db' !! write_digest w = Some (write_node w)) as Hin1
        by (intros w Hw; apply Hin, elem_of_app; now left).
      destruct (IH (S d) (p1 ≪ 1) (p2 ≪ 1) W1 h1 Hle ltac:(lia) Htr1 Hv1 Hv2 Hp1' Hp2'
                  Hin1 Hz1) as [Hh1 Hc1].
      split; [apply sha3_len|].
      assert (db' !! sha3 (zh (S d) ++ h1) = Some (zh (S d) ++ h1)) as Hdb.
      { apply (Hin (d, _, _)), elem_of_app. right. apply list_elem_of_here. }
      apply (crep_ext sha3 db' d _ _ _
               (crep_put_node db' d _ _ _ _ Hlt Hzl Hh1 Hzc Hc1 Hdb Hz)).
      intros q [Hq _]. cbv beta. rewrite !(path_eq_split q) by done.
      rewrite E1, E2. now destruct (top_bit q).
    + injection Htr as <- <-.
      apply Forall_cons in Hz as [Hz2 Hz]. apply Forall_cons in Hz as [Hz1 Hz].
      apply Forall_inv in Hz.
      split; [apply sha3_len|].
      assert (crep db' (S d) (msk (p2 ≪ 1) (S d) v2)
                (λ q, if bool_decide (q = (p2 ≪ 1) mod 2 ^ 256) then v2 else zero32)) as Hc2.
      { apply crep_put_single; try done. apply (Hin (S d, _, _)). apply list_elem_of_here. }
      assert (crep db' (S d) (msk (p1 ≪ 1) (S d) v1)
                (λ q, if bool_decide (q = (p1 ≪ 1) mod 2 ^ 256) then v1 else zero32)) as Hc1.
      { apply crep_put_single; try done. apply (Hin (S d, _, _)).
        apply list_elem_of_further, list_elem_of_here. }
      assert (db' !! sha3 (msk (p2 ≪ 1) (S d) v2 ++ msk (p1 ≪ 1) (S d) v1)
              = Some (msk (p2 ≪ 1) (S d) v2 ++ msk (p1 ≪ 1) (S d) v1)) as Hdb.
      { apply (Hin (d, _, _)).
        apply list_elem_of_further, list_elem_of_further, list_elem_of_here. }
      apply (crep_ext sha3 db' d _ _ _
               (crep_put_node db' d _ _ _ _ Hlt Hl2 Hl1 Hc2 Hc1 Hdb Hz)).
      intros q [Hq _]. cbv beta. rewrite !(path_eq_split q) by done.
      rewrite E1, E2. now destruct (top_bit q).
    + injection Htr as <- <-.
      apply Forall_cons in Hz as [Hz1 Hz]. apply Forall_cons in Hz as [Hz2 Hz].
      apply Forall_inv in Hz.
      split; [apply sha3_len|].
      assert (crep db' (S d) (msk (p1 ≪ 1) (S d) v1)
                (λ q, if bool_decide (q = (p1 ≪ 1) mod 2 ^ 256) then v1 else zero32)) as Hc1.
      { apply crep_put_single; try done. apply (Hin (S d, _, _)). apply list_elem_of_here. }
      assert (crep db' (S d) (msk (p2 ≪ 1) (S d) v2)
                (λ q, if bool_decide (q = (p2 ≪ 1) mod 2 ^ 256) then v2 else zero32)) as Hc2.
      { apply crep_put_single; try done. apply (Hin (S d, _, _)).
        apply list_elem_of_further, list_elem_of_here. }
      assert (db' !! sha3 (msk (p1 ≪ 1) (S d) v1 ++ msk (p2 ≪ 1) (S d) v2)
              = Some (msk (p1 ≪ 1) (S d) v1 ++ msk (p2 ≪ 1) (S d) v2)) as Hdb.
      { apply (Hin (d, _, _)).
        apply list_elem_of_further, list_elem_of_further, list_elem_of_here. }
      apply (crep_ext sha3 db' d _ _ _
               (crep_put_node db' d _ _ _ _ Hlt Hl1 Hl2 Hc1 Hc2 Hdb Hz)).
      intros q [Hq _]. cbv beta. rewrite !(path_eq_split q) by done.
      rewrite E1, E2. now destruct (top_bit q).
    + apply bind_Ok_inv in Htr as ([W1 h1] & Htr1 & Hret).
      injection Hret as <- <-.
      apply Forall_app in Hz as [Hz1 Hz]. apply Forall_inv in Hz.
      assert (∀ w, w ∈ W1 → db' !! write_digest w = Some (write_node w)) as Hin1
        by (intros w Hw; apply Hin, elem_of_app; now left).
      destruct (IH (S d) (p1 ≪ 1) (p2 ≪ 1) W1 h1 Hle ltac:(lia) Htr1 Hv1 Hv2 Hp1' Hp2'
                  Hin1 Hz1) as [Hh1 Hc1].
      split; [apply sha3_len|].
      assert (db' !! sha3 (h1 ++ zh (S d)) = Some (h1 ++ zh (S d))) as Hdb.
      { apply (Hin (d, _, _)), elem_of_app. right. apply list_elem_of_here. }
      apply (crep_ext sha3 db' d _ _ _
               (crep_put_node db' d _ _ _ _ Hlt Hh1 Hzl Hc1 Hzc Hdb Hz)).
      intros q [Hq _]. cbv beta. rewrite !(path_eq_split q) by done.
      rewrite E1, E2. now destruct (top_bit q).
Qed.

(** The digest returned by [_update] stands for the subtree it was given
    with the new leaf in it, in any store that extends the old one and holds
    the puts. *)
Lemma update_trace_crep db db' d h t :
  crep db d h t →
  ∀ p value W h',
    update_trace sha3 (256 - d) db h p d value = Ok (W, h') →
    length value = 32%nat → aligned d (p mod 2 ^ 256) →
    db ⊆ db' →
    (∀ w, w ∈ W → db' !! write_digest w = Some (write_node w)) →
    Forall (zero_safe sha3) W →
    length h' = 32%nat
    ∧ crep db' d h' (λ q, if bool_decide (q = p mod 2 ^ 256) then value else t q).
Proof.
  intros H.
  induction H as [v t Hv H|d t Hd H|d h c t Hd Hne Hc Hl Ha H
                  |d h c tl tr t Hd Hne Hc Hl Hcl IHl Hcr IHr H];
    intros p value W h' Htr Hval Hp Hsub Hin Hz.
  - injection Htr as <- <-. split; [done|].
    apply crep_leaf; [done|]. intros q Hq.
    apply aligned_256 in Hq, Hp. now rewrite Hq, Hp, bool_decide_eq_true_2.
  - replace (256 - d)%nat with (S (255 - d)) in Htr by lia.
    rewrite update_trace_S in Htr. destruct (Nat.eqb_spec d 256) as [|_]; [lia|].
    rewrite bool_decide_eq_true_2 in Htr by done. injection Htr as <- <-.
    apply Forall_inv in Hz.
    split; [now apply length_msk|].
    assert (db' !! msk p d value = Some (Compact.single_leaf_node p value)) as Hdb
      by (apply (Hin (d, _, _)); apply list_elem_of_here).
    apply (crep_ext sha3 db' d _ _ _
             (crep_put_single db' d p value ltac:(lia) Hval Hp Hdb Hz)).
    intros q Hq. cbv beta. now rewrite H.
  - replace (256 - d)%nat with (S (255 - d)) in Htr by lia.
    rewrite update_trace_S in Htr. destruct (Nat.eqb_spec d 256) as [|_]; [lia|].
    rewrite bool_decide_eq_false_2 in Htr by done.
    unfold db_get in Htr. rewrite Hc in Htr. cbn [subscriptable mbind result_bind] in Htr.
    rewrite bool_decide_eq_true_2 in Htr by done.
    assert (length (drop 33 c) = 32%nat) as Hov by (rewrite length_drop; lia).
    assert (Compact.key_to_path (take 32 (drop 1 c)) mod 2 ^ 256
            = Compact.key_to_path (take 32 (drop 1 c))) as Hmod
      by (apply Z.mod_small, Ha).
    assert (aligned d (Compact.key_to_path (take 32 (drop 1 c)) mod 2 ^ 256)) as Ha'
      by now rewrite Hmod.
    destruct (mdkh_trace_crep db' d _ _ _ _ W h' ltac:(lia) Htr Hval Hov Hp Ha' Hin Hz)
      as [Hlen Hcrep].
    split; [done|].
    apply (crep_ext sha3 db' d _ _ _ Hcrep).
    intros q Hq. cbv beta. now rewrite H, Hmod.
  - replace (256 - d)%nat with (S (256 - S d)) in Htr by lia.
    rewrite update_trace_S in Htr. destruct (Nat.eqb_spec d 256) as [|_]; [lia|].
    rewrite bool_decide_eq_false_2 in Htr by done.
    unfold db_get in Htr. rewrite Hc in Htr. cbn [subscriptable mbind result_bind] in Htr.
    rewrite bool_decide_eq_false_2 in Htr by (rewrite Hl; lia).
    rewrite !Nat.add_1_r in Htr.
    assert (aligned (S d) ((p ≪ 1) mod 2 ^ 256)) as Hp'
      by (rewrite <- shiftl_mod; now apply aligned_shift).
    assert (length (take 32 c) = 32%nat) as Hll by (rewrite length_take; lia).
    assert (length (drop 32 c) = 32%nat) as Hlr by (rewrite length_drop; lia).
    destruct (top_bit p) eqn:E.
    + apply bind_Ok_inv in Htr as ([W1 h1] & Htr1 & Hret).
      injection Hret as <- <-.
      apply Forall_app in Hz as [Hz1 Hz]. apply Forall_inv in Hz.
      assert (∀ w, w ∈ W1 → db' !! write_digest w = Some (write_node w)) as Hin1
        by (intros w Hw; apply Hin, elem_of_app; now left).
      destruct (IHr (p ≪ 1) value W1 h1 Htr1 Hval Hp' Hsub Hin1 Hz1) as [Hh1 Hc1].
      split; [apply sha3_len|].
      assert (db' !! sha3 (take 32 c ++ h1) = Some (take 32 c ++ h1)) as Hdb.
      { apply (Hin (d, _, _)), elem_of_app. right. apply list_elem_of_here. }
      apply (crep_ext sha3 db' d _ _ _
               (crep_put_node db' d _ _ _ _ Hd Hll Hh1
                  (crep_mono sha3 db db' _ _ _ Hsub Hcl) Hc1 Hdb Hz)).
      intros q Hq. cbv beta. rewrite H by done. destruct Hq as [Hq _].
      rewrite (path_eq_split q) by done. rewrite E. now destruct (top_bit q).
    + apply bind_Ok_inv in Htr as ([W1 h1] & Htr1 & Hret).
      injection Hret as <- <-.
      apply Forall_app in Hz as [Hz1 Hz]. apply Forall_inv in Hz.
      assert (∀ w, w ∈ W1 → db' !! write_digest w = Some (write_node w)) as Hin1
        by (intros w Hw; apply Hin, elem_of_app; now left).
      destruct (IHl (p ≪ 1) value W1 h1 Htr1 Hval Hp' Hsub Hin1 Hz1) as [Hh1 Hc1].
      split; [apply sha3_len|].
      assert (db' !! sha3 (h1 ++ drop 32 c) = Some (h1 ++ drop 32 c)) as Hdb.
      { apply (Hin (d, _, _)), elem_of_app. right. apply list_elem_of_here. }
      apply (crep_ext sha3 db' d _ _ _
               (crep_put_node db' d _ _ _ _ Hd Hh1 Hlr Hc1
                  (crep_mono sha3 db db' _ _ _ Hsub Hcr) Hdb Hz)).
      intros q Hq. cbv beta. rewrite H by done. destruct Hq as [Hq _].
      rewrite (path_eq_split q) by done. rewrite E. now destruct (top_bit q).
Qed.

End CompactUpdates.

(** ** The compact engine: runs from the empty tree *)

Section CompactRuns.

Variable sha3 : bytes → bytes.
Hypothesis sha3_len : ∀ x, length (sha3 x) = 32%nat.

Local Abbreviation zh := (zerohash sha3).
Local Abbreviation crep := (crep sha3).

(** A store that gains entries answers [get] as before, where [get]
    returned. *)
Lemma compact_get_loop_mono db db' n i v path res :
  db ⊆ db' →
  Compact.get_loop sha3 n i db v path = Ok res →
  Compact.get_loop sha3 n i db' v path = Ok res.
Proof.
  intros Hsub. revert i v path. induction n as [|n IH]; intros i v path; [done|].
  rewrite !compact_get_loop_S. destruct (bool_decide (v = zh i)); [done|].
  unfold db_get. destruct (db !! v) as [c|] eqn:E; [|done].
  rewrite (lookup_weaken _ _ _ _ E Hsub). cbn [subscriptable mbind result_bind].
  destruct (bool_decide (length c = 65%nat)); [done|]. apply IH.
Qed.

(** One update of a tree that stands for [t]: the store keeps its entries,
    and the new root stands for [t] with the new leaf. *)
Lemma compact_update_crep db root t key value db' root' :
  crep db 0 root t →
  length key = 32%nat → length value = 32%nat →
  sound_writes sha3 db (compact_update_writes sha3 db root key value) →
  Compact.update sha3 db root key value = Ok (db', root') →
  db ⊆ db'
  ∧ crep db' 0 root'
      (λ q, if bool_decide (q = Compact.key_to_path key) then value else t q).
Proof.
  intros Hc Hk Hv (Hold & Hnew & Hz) Hupd.
  apply compact_update_trace in Hupd as [Htr ->].
  destruct (put_all_sound _ db Hold Hnew) as [Hsub Hin].
  split; [done|].
  assert (Compact.key_to_path key mod 2 ^ 256 = Compact.key_to_path key) as Hmod
    by (apply Z.mod_small, key_to_path_range, Hk).
  destruct (update_trace_crep sha3 sha3_len db _ 0 root t Hc _ _ _ _ Htr Hv
              (aligned_0 _) Hsub Hin Hz) as [_ Hc'].
  apply (crep_ext sha3 _ 0 _ _ _ Hc'). intros q _. cbv beta. now rewrite Hmod.
Qed.

(** The root of a run stands for the tree of its history. *)
Lemma compact_run_crep history db root :
  compact_run sha3 history db root →
  ∃ t, crep db 0 root t
       ∧ ∀ key, length key = 32%nat → t (Compact.key_to_path key) = latest history key.
Proof.
  induction 1 as [|history db root key value db' root' _ (t & Hc & Ht) Hk Hv Hs Hupd].
  - exists (λ _, zero32). split; [|done]. apply crep_zero; [lia|done].
  - destruct (compact_update_crep db root t key value db' root' Hc Hk Hv Hs Hupd)
      as [_ Hc'].
    eexists. split; [exact Hc'|]. intros key2 Hk2. cbv beta. cbn [latest].
    destruct (decide (key = key2)) as [->|Hne].
    + now rewrite bool_decide_eq_true_2.
    + rewrite bool_decide_eq_false_2; [now apply Ht|].
      intros He. apply Hne. symmetry. apply from_bytes_big_inj; [congruence|exact He].
Qed.

(** [get] on the tree of a run reads the latest value of the history. *)
Lemma compact_get_latest history db root key :
  compact_run sha3 history db root → length key = 32%nat →
  Compact.get sha3 db root key = Ok (latest history key).
Proof.
  intros Hrun Hk. destruct (compact_run_crep history db root Hrun) as (t & Hc & Ht).
  unfold Compact.get.
  pose proof (compact_get_loop_crep sha3 db 0 root t Hc (Compact.key_to_path key)
                (aligned_0 _)) as Hg.
  change (256 - 0)%nat with 256%nat in Hg. rewrite Hg.
  rewrite Z.mod_small by (apply key_to_path_range, Hk). now rewrite Ht.
Qed.

(** An update never takes an entry out of the store. *)
Lemma compact_update_dom db root key value db' root' h :
  Compact.update sha3 db root key value = Ok (db', root') →
  is_Some (db !! h) → is_Some (db' !! h).
Proof.
  intros Hupd. apply compact_update_trace in Hupd as [_ ->]. apply put_all_dom.
Qed.

(** With sound puts an update leaves every entry as it was. *)
Lemma compact_update_subseteq db root key value db' root' :
  sound_writes sha3 db (compact_update_writes sha3 db root key value) →
  Compact.update sha3 db root key value = Ok (db', root') →
  db ⊆ db'.
Proof.
  intros (Hold & Hnew & _) Hupd. apply compact_update_trace in Hupd as [_ ->].
  now apply put_all_sound.
Qed.

End CompactRuns.

(** ** The checks of a replay *)

Section CompactReplayFacts.

Variable sha3 : bytes → bytes.

Lemma zero_safeb_spec w : zero_safeb sha3 w = true → zero_safe sha3 w.
Proof.
  unfold zero_safeb, zero_safe. intros H Hd Hh.
  change (nth (write_depth w) (zerohashes_table sha3) [])
    with (zerohash sha3 (write_depth w)) in H.
  change (nth (S (write_depth w)) (zerohashes_table sha3) [])
    with (zerohash sha3 (S (write_depth w))) in H.
  rewrite (proj2 (Nat.ltb_lt _ _) Hd), bool_decide_eq_true_2 in H by done.
  cbn [andb] in H. apply orb_true_iff in H as [H|H].
  - apply andb_true_iff in H as [H1 H2]. left.
    split; [exact (bool_decide_eq_true_1 _ H1)|exact (bool_decide_eq_true_1 _ H2)].
  - right. exact (bool_decide_eq_true_1 _ H).
Qed.

Lemma fresh_writesb_spec W db :
  fresh_writesb W db = true →
  (∀ w c, w ∈ W → db !! write_digest w = Some c → c = write_node w)
  ∧ (∀ w w', w ∈ W → w' ∈ W → write_digest w = write_digest w' →
             write_node w = write_node w').
Proof.
  revert db. induction W as [|w0 W IH]; intros db H.
  - split; intros w; intros; exfalso; eapply not_elem_of_nil; eassumption.
  - cbn [fresh_writesb] in H. destruct (db !! write_digest w0) as [c0|] eqn:E.
    + apply andb_true_iff in H as [Hc H]. apply bool_decide_eq_true_1 in Hc.
      destruct (IH db H) as [Hold Hnew]. split.
      * intros w c Hw Hl. apply elem_of_cons in Hw as [->|Hw]; [congruence|].
        now apply Hold.
      * intros w w' Hw Hw' He.
        apply elem_of_cons in Hw as [->|Hw]; apply elem_of_cons in Hw' as [->|Hw'].
        -- done.
        -- rewrite <- Hc. apply Hold; [done|]. now rewrite <- He.
        -- rewrite <- Hc. symmetry. apply Hold; [done|]. now rewrite He.
        -- now apply Hnew.
    + destruct (IH _ H) as [Hold Hnew]. split.
      * intros w c Hw Hl. apply elem_of_cons in Hw as [->|Hw]; [congruence|].
        apply Hold; [done|]. rewrite lookup_insert_ne; [done|]. congruence.
      * intros w w' Hw Hw' He.
        apply elem_of_cons in Hw as [->|Hw]; apply elem_of_cons in Hw' as [->|Hw'].
        -- done.
        -- apply Hold; [done|]. rewrite <- He. apply lookup_insert_eq.
        -- symmetry. apply Hold; [done|]. rewrite He. apply lookup_insert_eq.
        -- now apply Hnew.
Qed.

Lemma sound_writesb_spec db W :
  sound_writesb sha3 db W = true → sound_writes sha3 db W.
Proof.
  unfold sound_writesb. intros H. apply andb_true_iff in H as [Hf Hz].
  destruct (fresh_writesb_spec W db Hf) as [Hold Hnew].
  split; [done|]. split; [done|].
  apply Forall_forall. intros w Hw. apply zero_safeb_spec.
  rewrite forallb_forall in Hz. apply Hz. now apply list_elem_of_In.
Qed.

Lemma compact_replay_cons key value history :
  compact_replay sha3 ((key, value) :: history) =
  match compact_replay sha3 history with
  | Some (db, root) =>
      if sound_writesb sha3 db (compact_update_writes sha3 db root key value)
      then match Compact.update sha3 db root key value with
           | Ok r => Some r
           | Raise _ => None
           end
      else None
  | None => None
  end.
Proof. reflexivity. Qed.

(** A history that replays is a run. *)
Lemma compact_replay_run history db root :
  Forall (λ kv, length kv.1 = 32%nat ∧ length kv.2 = 32%nat) history →
  compact_replay sha3 history = Some (db, root) →
  compact_run sha3 history db root.
Proof.
  intros Hlens. revert db root.
  induction Hlens as [|[key value] history [Hk Hv] _ IH]; intros db root Hrep.
  - injection Hrep as <- <-. apply compact_run_new.
  - rewrite compact_replay_cons in Hrep.
    destruct (compact_replay sha3 history) as [[db0 root0]|]; [|done].
    destruct (sound_writesb sha3 db0 _) eqn:Hs; [|done].
    destruct (Compact.update sha3 db0 root0 key value) as [[db1 root1]|e] eqn:Hupd; [|done].
    injection Hrep as <- <-.
    apply (compact_run_update sha3 history db0 root0 key value db1 root1);
      [now apply IH|done|done|now apply sound_writesb_spec|done].
Qed.

End CompactReplayFacts.

(** ** The two engines on one history *)

Section Engines.

Variable sha3 : bytes → bytes.
Hypothesis sha3_len : ∀ x, length (sha3 x) = 32%nat.





End Engines.

(** ** Runs of the two engines on concrete histories *)

Lemma length_quick_sha3 x : length (quick_sha3 x) = 32%nat.
Proof.
  unfold quick_sha3. cbv zeta. rewrite length_app, repeat_length, length_to_bytes_big.
  reflexivity.
Qed.

Lemma default_Some2 {A B} (d : A * B) (r : option (A * B)) :
  is_Some r → r = Some ((default d r).1, (default d r).2).
Proof. intros [[a b] ->]. reflexivity. Qed.

Lemma compact_replay_cons_inv sha3 key value history db' root' :
  compact_replay sha3 ((key, value) :: history) = Some (db', root') →
  ∃ db root,
    compact_replay sha3 history = Some (db, root)
    ∧ sound_writes sha3 db (compact_update_writes sha3 db root key value)
    ∧ Compact.update sha3 db root key value = Ok (db', root').
Proof.
  rewrite compact_replay_cons.
  destruct (compact_replay sha3 history) as [[db root]|]; [|discriminate].
  destruct (sound_writesb sha3 db _) eqn:Hs; [|discriminate].
  destruct (Compact.update sha3 db root key value) as [[db1 root1]|e] eqn:Hupd;
    [|discriminate].
  intros [= <- <-]. exists db, root.
  split; [reflexivity|]. split; [now apply sound_writesb_spec|exact Hupd].
Qed.

(** The compact tree of a history that replays is the tree of a run. *)
Lemma compact_tree_run history :
  Forall (λ kv, length kv.1 = 32%nat ∧ length kv.2 = 32%nat) history →
  is_Some (compact_replay quick_sha3 history) →
  compact_run quick_sha3 history (compact_tree history).1 (compact_tree history).2.
Proof.
  intros Hlens Hsome. apply compact_replay_run; [exact Hlens|].
  exact (default_Some2 _ _ Hsome).
Qed.

(** The last update of a history that replays. *)
Lemma compact_tree_step key value history :
  is_Some (compact_replay quick_sha3 ((key, value) :: history)) →
  sound_writes quick_sha3 (compact_tree history).1
    (compact_update_writes quick_sha3 (compact_tree history).1
       (compact_tree history).2 key value)
  ∧ Compact.update quick_sha3 (compact_tree history).1 (compact_tree history).2 key value
    = Ok ((compact_tree ((key, value) :: history)).1,
          (compact_tree ((key, value) :: history)).2).
Proof.
  intros Hsome. pose proof (default_Some2 (∅, []) _ Hsome) as Hrep.
  apply compact_replay_cons_inv in Hrep as (db & root & Hh & Hs & Hupd).
  unfold compact_tree at 1 2 3 4 5 6. rewrite Hh. cbn [default from_option id fst snd].
  split; [exact Hs|exact Hupd].
Qed.

(** The eager tree of a history that replays without a collision is the
    tree of a run, and its store holds nodes of the replay only. *)
Lemma eager_tree_run history :
  Forall (λ kv, length kv.1 = 32%nat ∧ length kv.2 = 32%nat) history →
  is_Ok (eager_replay quick_sha3 history) = true →
  collision_freeb quick_sha3 (eager_tree history).2 = true →
  eager_run quick_sha3 history (eager_tree history).1.1 (eager_tree history).1.2
  ∧ ∀ c, stored (eager_tree history).1.1 c → c ∈ (eager_tree history).2.
Proof.
  intros Hlens Hok Hcf.
  apply (eager_replay_run quick_sha3 history _ _ _ Hlens).
  - exact (expect_Ok3 (∅, [], []) _ Hok).
  - now apply collision_freeb_spec.
Qed.

(** No collision between the nodes of the tree and those of one more
    update. *)
Lemma eager_tree_step history key value :
  Forall (λ kv, length kv.1 = 32%nat ∧ length kv.2 = 32%nat) history →
  is_Ok (eager_replay quick_sha3 history) = true →
  collision_freeb quick_sha3
    (eager_update_nodes quick_sha3 (eager_tree history).1.1 (eager_tree history).1.2
       key value ++ (eager_tree history).2) = true →
  eager_run quick_sha3 history (eager_tree history).1.1 (eager_tree history).1.2
  ∧ collision_free quick_sha3
      (λ c, stored (eager_tree history).1.1 c
            ∨ c ∈ eager_update_nodes quick_sha3 (eager_tree history).1.1
                    (eager_tree history).1.2 key value).
Proof.
  intros Hlens Hok Hcf. apply collision_freeb_spec in Hcf.
  destruct (eager_replay_run quick_sha3 history _ _ _ Hlens
              (expect_Ok3 (∅, [], []) _ Hok)) as [Hrun Hstored].
  - eapply collision_free_weaken; [|exact Hcf].
    intros x Hx. apply elem_of_app. now right.
  - split; [exact Hrun|].
    eapply collision_free_weaken; [|exact Hcf].
    intros x [Hx|Hx]; apply elem_of_app; [right; now apply Hstored|now left].
Qed.

Lemma one_leaf_lengths :
  Forall (λ kv : bytes * bytes, length kv.1 = 32%nat ∧ length kv.2 = 32%nat) one_leaf.
Proof. repeat constructor. Qed.

Lemma two_leaves_lengths :
  Forall (λ kv : bytes * bytes, length kv.1 = 32%nat ∧ length kv.2 = 32%nat) two_leaves.
Proof. repeat constructor. Qed.

Lemma left_right_lengths :
  Forall (λ kv : bytes * bytes, length kv.1 = 32%nat ∧ length kv.2 = 32%nat) left_right.
Proof. repeat constructor. Qed.

Lemma length_right_digest : length right_digest = 32%nat.
Proof. apply length_msk; [apply length_quick_sha3|reflexivity]. Qed.

Lemma key_02_ne_01 : key_02 ≠ key_01.
Proof. intros H. vm_compute in H. discriminate H. Qed.

Lemma compact_replay_two_leaves : is_Some (compact_replay quick_sha3 two_leaves).
Proof.
  assert (bool_decide (is_Some (compact_replay quick_sha3 two_leaves)) = true) as H
    by (vm_compute; reflexivity).
  exact (bool_decide_eq_true_1 _ H).
Qed.

Lemma compact_replay_one_leaf : is_Some (compact_replay quick_sha3 one_leaf).
Proof.
  assert (bool_decide (is_Some (compact_replay quick_sha3 one_leaf)) = true) as H
    by (vm_compute; reflexivity).
  exact (bool_decide_eq_true_1 _ H).
Qed.

(** The eager engine on the tree of [0x00..01 -> 0x11..11], before the
    update of [0x00..02] with [0x22..22]. *)
Lemma eager_one_leaf_step :
  eager_run quick_sha3 one_leaf (eager_tree one_leaf).1.1 (eager_tree one_leaf).1.2
  ∧ collision_free quick_sha3
      (λ c, stored (eager_tree one_leaf).1.1 c
            ∨ c ∈ eager_update_nodes quick_sha3 (eager_tree one_leaf).1.1
                    (eager_tree one_leaf).1.2 key_02 value_22).
Proof.
  apply eager_tree_step; [exact one_leaf_lengths| |]; vm_compute; reflexivity.
Qed.

Lemma eager_two_leaves_run :
  eager_run quick_sha3 two_leaves (eager_tree two_leaves).1.1 (eager_tree two_leaves).1.2.
Proof.
  apply eager_tree_run; [exact two_leaves_lengths| |]; vm_compute; reflexivity.
Qed.









(** * Further properties of the two engines *)

Section FurtherProperties.

Variable sha3 : bytes → bytes.
Hypothesis sha3_len : ∀ x, length (sha3 x) = 32%nat.

Local Abbreviation zh := (zerohash sha3).
Local Abbreviation msk := (Compact.make_single_key_hash sha3).
Local Abbreviation mdkh := (Compact.make_double_key_hash sha3).

(** The table [zerohashes] of both files: 257 entries, the last one the
    zero leaf, each other one the digest of two copies of the next. *)
Theorem zerohashes_chain :
  length (zerohashes_table sha3) = 257%nat
  ∧ zh 256 = zero32
  ∧ ∀ d, (d < 256)%nat → zh d = sha3 (zh (S d) ++ zh (S d)).
Proof.
  split; [apply length_zerohashes_table|]. split; [apply zerohash_256|].
  intros d Hd. now apply zerohash_succ.
Qed.

(** The compact [get] on the empty root reads the zero value at every key,
    whatever the store holds. *)
Theorem compact_get_empty_root (db : store) (key : bytes) :
  Compact.get sha3 db (Compact.new_tree sha3 db) key = Ok zero32.
Proof.
  unfold Compact.get. change 256%nat with (S 255) at 1.
  rewrite compact_get_loop_S. now rewrite bool_decide_eq_true_2.
Qed.

(** The eager [get] on the tree of [new_tree] reads the zero value at every
    key. *)
Theorem eager_get_empty_tree (key : bytes) :
  collision_free sha3 (λ c, c ∈ zero_nodes sha3) →
  length key = 32%nat →
  Eager.get (Eager.new_tree sha3 ∅).1 (Eager.new_tree sha3 ∅).2 key = Ok zero32.
Proof.
  intros Hcf Hk.
  exact (eager_get_latest sha3 sha3_len [] _ _ key (eager_run_new sha3 Hcf) Hk).
Qed.

(** [path_to_key] and [key_to_path] are inverse to each other on 32-byte
    keys and on paths below [2^256]; [path_to_key] drops the bits of a
    shifted path from bit 256 on. *)
Theorem key_path_roundtrip (k : bytes) (p : Z) :
  length k = 32%nat →
  Compact.path_to_key (Compact.key_to_path k) = k
  ∧ Compact.key_to_path (Compact.path_to_key p) = p mod 2 ^ 256
  ∧ length (Compact.path_to_key p) = 32%nat.
Proof.
  intros Hk. split; [|split; [apply key_to_path_to_key|apply length_path_to_key]].
  unfold Compact.path_to_key, Compact.key_to_path, Compact.tt256m1.
  change (2 ^ 256 - 1) with (Z.ones 256). rewrite Z.land_ones by lia.
  rewrite Z.mod_small by (apply key_to_path_range, Hk).
  rewrite <- Hk at 1. apply to_from_bytes_big.
Qed.

(** The digest of a single-leaf subtree that holds the zero value is the
    zero hash of its depth: writing zero is writing nothing. *)
Theorem single_key_hash_of_zero (path : Z) (d : nat) :
  (d ≤ 256)%nat →
  Compact.make_single_key_hash sha3 path d zero32 = zerohash sha3 d.
Proof. apply msk_zero32. Qed.

Lemma mdkh_differ_returns db p1 p2 d v1 v2 i :
  (d ≤ 256)%nat → Z.of_nat d ≤ i ≤ 255 →
  Z.testbit p1 i ≠ Z.testbit p2 i →
  ∃ db' h, mdkh db p1 p2 d v1 v2 = Ok (db', h).
Proof.
  intros Hd. remember (256 - d)%nat as n eqn:Hn.
  revert db p1 p2 d i Hd Hn. induction n as [|n IH]; intros db p1 p2 d i Hd Hn Hi Hne.
  - lia.
  - rewrite mdkh_step by lia. rewrite !top_bit_testbit.
    destruct (decide (i = 255)) as [->|Hi255].
    + destruct (Z.testbit p1 255), (Z.testbit p2 255); try done; cbv zeta; eauto.
    + destruct (IH db (p1 ≪ 1) (p2 ≪ 1) (d + 1)%nat (i + 1)) as (db' & h & Hr);
        [lia|lia|lia| |].
      { rewrite !Z.shiftl_spec by lia. now replace (i + 1 - 1) with i by lia. }
      rewrite Hr. cbn [mbind result_bind]. cbv zeta.
      destruct (Z.testbit p1 255), (Z.testbit p2 255); eauto.
Qed.

(** [make_double_key_hash] raises "Cannot fit two values into one slot!"
    when the two paths agree on the bits 255 down to [depth], and returns
    when they differ in one of them. *)
Theorem double_key_hash_outcome db p1 p2 d v1 v2 :
  (d ≤ 256)%nat →
  ((∀ i, Z.of_nat d ≤ i ≤ 255 → Z.testbit p1 i = Z.testbit p2 i) →
   Compact.make_double_key_hash sha3 db p1 p2 d v1 v2 = Raise SlotException)
  ∧ (∀ i, Z.of_nat d ≤ i ≤ 255 → Z.testbit p1 i ≠ Z.testbit p2 i →
          ∃ db' h, Compact.make_double_key_hash sha3 db p1 p2 d v1 v2 = Ok (db', h)).
Proof.
  intros Hd. split.
  - now apply mdkh_same_raises.
  - intros i. now apply mdkh_differ_returns.
Qed.

(** The eager [get] is [descend] along the bits of the key, the most
    significant one first. *)
Theorem eager_get_is_descend (db : store) (root key : bytes) :
  Eager.get db root key
  = Eager.descend db root
      ((λ i : nat, Z.testbit (Eager.key_to_path key) (255 - Z.of_nat i)) <$> seq 0 256).
Proof.
  unfold Eager.get. rewrite eager_get_loop_descend. f_equal.
  apply list_eq. intros i. destruct (decide (i < 256)%nat) as [Hi|Hi].
  - rewrite path_flags_nth by done.
    rewrite list_lookup_fmap, lookup_seq_lt by done. reflexivity.
  - rewrite !lookup_ge_None_2; [done| |].
    + rewrite length_fmap, length_seq. lia.
    + rewrite length_path_flags. lia.
Qed.

Lemma eager_get_loop_missing n db v path :
  db !! v = None → Eager.get_loop (S n) db v path = Raise TypeError.
Proof. intros H. cbn [Eager.get_loop]. unfold db_get. now rewrite H. Qed.

Lemma sidenodes_loop_missing n db v path acc :
  db !! v = None → Eager.sidenodes_loop (S n) db v path acc = Raise TypeError.
Proof. intros H. cbn [Eager.sidenodes_loop]. unfold db_get. now rewrite H. Qed.

(** A digest that the store does not hold: [db.get] returns [None], and
    reading it raises a [TypeError], in [get] and [update] of both engines;
    the compact engine looks the root up only when it is not the zero hash. *)
Theorem missing_root_raises (db : store) (root key value : bytes) :
  db !! root = None →
  Eager.get db root key = Raise TypeError
  ∧ Eager.update sha3 db root key value = Raise TypeError
  ∧ Eager.make_merkle_proof db root key = Raise TypeError
  ∧ (root ≠ zh 0 →
     Compact.get sha3 db root key = Raise TypeError
     ∧ Compact.update sha3 db root key value = Raise TypeError).
Proof.
  intros Hroot. split; [|split; [|split]].
  - unfold Eager.get. now apply eager_get_loop_missing.
  - unfold Eager.update. cbv zeta.
    now rewrite (sidenodes_loop_missing 255 db root _ [] Hroot).
  - unfold Eager.make_merkle_proof. now apply sidenodes_loop_missing.
  - intros Hne. split.
    + unfold Compact.get. change 256%nat with (S 255) at 1.
      rewrite compact_get_loop_S, bool_decide_eq_false_2 by done.
      unfold db_get. now rewrite Hroot.
    + unfold Compact.update. rewrite _update_step by lia.
      rewrite bool_decide_eq_false_2 by done. unfold db_get. now rewrite Hroot.
Qed.

(** The siblings of a key do not change when its leaf does: the proof made
    before an update verifies the new value against the new root. *)
Theorem update_keeps_old_proof (db : store) (root key value : bytes) (proof : list bytes) :
  Eager.make_merkle_proof db root key = Ok proof →
  ∃ db' root',
    Eager.update sha3 db root key value = Ok (db', root')
    ∧ Eager.verify_proof sha3 proof root' key value = Ok true.
Proof.
  intros Hproof. rewrite eager_make_merkle_proof_siblings in Hproof.
  rewrite eager_update_graft, Hproof. cbn [mbind result_bind]. cbv zeta.
  eexists _, _. split; [reflexivity|].
  unfold Eager.verify_proof.
  pose proof (length_siblings _ _ _ _ Hproof) as Hlen.
  rewrite length_path_flags in Hlen.
  pose proof (verify_loop_graft sha3 256 0 [] proof [] (Eager.key_to_path key) value
                Hlen eq_refl) as Hv.
  rewrite app_nil_r in Hv. cbn [app] in Hv. rewrite Hv.
  cbn [mbind result_bind].
  rewrite low_flags_reverse, reverse_involutive.
  now rewrite bool_decide_eq_true_2.
Qed.

(** On a tree of the eager engine every key has a proof of 256 digests of
    32 bytes, and it verifies the value that the history gives the key: the
    latest one written, or the zero value for a key never written. *)
Theorem eager_proof_any_key history db root key :
  eager_run sha3 history db root → length key = 32%nat →
  ∃ proof,
    Eager.make_merkle_proof db root key = Ok proof
    ∧ length proof = 256%nat
    ∧ Forall (λ s, length s = 32%nat) proof
    ∧ Eager.verify_proof sha3 proof root key (latest history key) = Ok true.
Proof.
  intros Hrun Hk.
  destruct (eager_run_wf sha3 sha3_len history db root Hrun) as [Hwf Hcl].
  pose proof (length_path_flags 256 (Eager.key_to_path key)) as Hfl.
  destruct (closed_siblings 256 db root _ Hcl Hfl) as [ss Hss].
  exists ss. rewrite eager_make_merkle_proof_siblings.
  split; [exact Hss|]. split.
  { apply length_siblings in Hss. now rewrite Hss. }
  split.
  { exact (siblings_lengths 256 db root _ ss Hcl Hfl Hss). }
  apply (eager_proof_verifies sha3 db root key ss _ Hwf).
  - now rewrite eager_make_merkle_proof_siblings.
  - exact (eager_get_latest sha3 sha3_len history db root key Hrun Hk).
Qed.

Lemma graft_inj l v1 v2 :
  collision_free sha3 (λ c, c ∈ graft_nodes sha3 l v1 ∨ c ∈ graft_nodes sha3 l v2) →
  graft sha3 l v1 = graft sha3 l v2 → v1 = v2.
Proof.
  induction l as [|[b s] l IH]; intros Hcf Heq; [exact Heq|].
  cbn [graft graft_nodes] in *.
  apply IH.
  - eapply collision_free_weaken; [|exact Hcf].
    intros x [Hx|Hx]; [left|right]; now right.
  - apply Hcf in Heq; [|left; left|right; left].
    unfold node_of in Heq. destruct b.
    + now apply app_inv_head in Heq.
    + now apply app_inv_tail in Heq.
Qed.

(** Without a collision of [sha3] along the two paths, a proof that
    verifies one value at a key against a root is refused for every other
    value. *)
Theorem verify_proof_binds_value (proof : list bytes) (root key v1 v2 : bytes) :
  length proof = 256%nat →
  collision_free sha3
    (λ c, c ∈ graft_nodes sha3 (zip (path_flags 256 (Eager.key_to_path key)) proof) v1
          ∨ c ∈ graft_nodes sha3 (zip (path_flags 256 (Eager.key_to_path key)) proof) v2) →
  Eager.verify_proof sha3 proof root key v1 = Ok true →
  v2 ≠ v1 →
  Eager.verify_proof sha3 proof root key v2 = Ok false.
Proof.
  intros Hlen Hcf. unfold Eager.verify_proof.
  pose proof (λ v, verify_loop_graft sha3 256 0 [] proof [] (Eager.key_to_path key) v
                     Hlen eq_refl) as Hv.
  rewrite app_nil_r in Hv. cbn [app] in Hv. rewrite !Hv.
  cbn [mbind result_bind]. rewrite low_flags_reverse, reverse_involutive.
  revert Hcf. generalize (zip (path_flags 256 (Eager.key_to_path key)) proof).
  intros l Hcf [= H1] Hne.
  apply bool_decide_eq_true_1 in H1. f_equal. apply bool_decide_eq_false_2.
  intros H2. apply Hne. symmetry. apply (graft_inj _ _ _ Hcf). now rewrite <- H1, <- H2.
Qed.

(** [multi_update] on two lists of updates, one after the other. *)
Lemma compact_multi_update_app db root kvs1 kvs2 :
  Compact.multi_update sha3 db root (kvs1 ++ kvs2) =
  '(db', root') ← Compact.multi_update sha3 db root kvs1;
  Compact.multi_update sha3 db' root' kvs2.
Proof.
  revert db root. induction kvs1 as [|[k v] kvs1 IH]; intros db root; [done|].
  cbn [app Compact.multi_update].
  destruct (Compact.update sha3 db root k v) as [[db1 root1]|e]; [|done].
  cbn [mbind result_bind]. apply IH.
Qed.


(** The loop of [compress_proof] on the first 256 entries of a proof. *)
Lemma compress_loop_start proof :
  (length proof ≤ 256)%nat →
  ∃ bits,
    Eager.compress_loop sha3 proof 0 (repeat 0 32) [] = Ok (bits, payload sha3 0 proof)
    ∧ length bits = 32%nat
    ∧ Forall (λ b, 0 ≤ b < 256) bits
    ∧ ∀ j, bit_at bits j = elided sha3 proof j.
Proof.
  intros Hlen.
  destruct (compress_loop_spec sha3 proof [] (repeat 0 32) [])
    as (bits & Hloop & Hb & Hr & Hbits).
  - cbn [app]. lia.
  - apply repeat_length.
  - apply Forall_forall. intros b Hb. apply list_elem_of_In, repeat_spec in Hb. lia.
  - intros j. cbn [length]. unfold bit_at. rewrite nth_repeat, Z.bits_0. done.
  - exists bits. cbn [length app] in Hloop, Hbits. done.
Qed.

(** The format of a compressed proof: a bitmap of 32 bytes whose bit [j]
    tells that entry [j] is [zerohashes[j+1]], then the other entries in
    their order. [compress_proof] returns it for every proof of at most 256
    entries, whatever their lengths. *)
Theorem compress_proof_format (proof : list bytes) :
  (length proof ≤ 256)%nat →
  ∃ c, Eager.compress_proof sha3 proof = Ok c
       ∧ drop 32 c = payload sha3 0 proof
       ∧ ∀ j, bit_at (byte_to_Z <$> take 32 c) j = elided sha3 proof j.
Proof.
  intros Hlen.
  destruct (compress_loop_start proof Hlen) as (bits & Hloop & Hb & Hr & Hbits).
  destruct (bytes_of_ints_range bits Hr) as [Hbytes Hback].
  exists ((byte_of_Z <$> bits) ++ payload sha3 0 proof). split; [|split].
  - unfold Eager.compress_proof. rewrite Hloop. cbn [mbind result_bind].
    rewrite Hbytes. reflexivity.
  - now rewrite drop_app_length' by (now rewrite length_fmap).
  - intros j. rewrite take_app_length' by (now rewrite length_fmap).
    now rewrite Hback.
Qed.

Lemma compress_loop_app a b i bits oproof :
  Eager.compress_loop sha3 (a ++ b) i bits oproof =
  '(bits', oproof') ← Eager.compress_loop sha3 a i bits oproof;
  Eager.compress_loop sha3 b (i + length a) bits' oproof'.
Proof.
  revert i bits oproof. induction a as [|p a IH]; intros i bits oproof.
  - cbn [app length]. rewrite compress_loop_nil. cbn [mbind result_bind].
    now rewrite Nat.add_0_r.
  - cbn [app length]. rewrite !compress_loop_cons.
    destruct (index (zerohashes_table sha3) (i + 1)) as [z|e]; [|done].
    cbn [mbind result_bind].
    replace (i + S (length a))%nat with (S i + length a)%nat by lia.
    destruct (bool_decide (p = z)); [|apply IH].
    destruct (Eager.xor_bit bits i) as [bits'|e]; [|done].
    cbn [mbind result_bind]. apply IH.
Qed.

(** A proof of more than 256 entries: entry 256 is compared with
    [zerohashes[257]], which the table does not have. *)
Theorem compress_proof_too_long (proof : list bytes) :
  (256 < length proof)%nat → Eager.compress_proof sha3 proof = Raise IndexError.
Proof.
  intros Hlen. unfold Eager.compress_proof.
  rewrite <- (take_drop 256 proof), compress_loop_app.
  destruct (compress_loop_start (take 256 proof)) as (bits & Hloop & _);
    [rewrite length_take; lia|].
  rewrite Hloop. cbn [mbind result_bind].
  destruct (drop 256 proof) as [|p rest] eqn:Hd.
  - apply (f_equal length) in Hd. rewrite length_drop in Hd. cbn in Hd. lia.
  - rewrite compress_loop_cons. unfold index.
    rewrite lookup_ge_None_2; [done|].
    rewrite length_zerohashes_table, length_take. lia.
Qed.

End FurtherProperties.

(** ** The further properties on concrete trees *)

Lemma expect_Ok {A} (d : A) (r : result A) : is_Ok r = true → r = Ok (expect d r).
Proof. destruct r as [a|e]; [reflexivity|discriminate]. Qed.

Lemma quick_zero_nodes_collision_free :
  collision_free quick_sha3 (λ c, c ∈ zero_nodes quick_sha3).
Proof. apply collision_freeb_spec. vm_compute. reflexivity. Qed.

Lemma eager_get_empty_tree_witness :
  Eager.get (Eager.new_tree quick_sha3 ∅).1 (Eager.new_tree quick_sha3 ∅).2 key_01
  = Ok zero32.
Proof.
  apply (eager_get_empty_tree quick_sha3 length_quick_sha3 key_01).
  - exact quick_zero_nodes_collision_free.
  - reflexivity.
Defined.

Lemma key_path_roundtrip_witness :
  Compact.path_to_key (Compact.key_to_path key_01) = key_01
  ∧ Compact.key_to_path (Compact.path_to_key (2 ^ 256 + 5)) = (2 ^ 256 + 5) mod 2 ^ 256
  ∧ length (Compact.path_to_key (2 ^ 256 + 5)) = 32%nat.
Proof. apply (key_path_roundtrip key_01 (2 ^ 256 + 5)). reflexivity. Defined.

Lemma single_key_hash_of_zero_witness :
  Compact.make_single_key_hash quick_sha3 5 3 zero32 = zerohash quick_sha3 3.
Proof. apply (single_key_hash_of_zero quick_sha3 5 3). lia. Defined.

Lemma double_key_hash_outcome_witness :
  Compact.make_double_key_hash quick_sha3 ∅ 5 5 0 value_11 value_22 = Raise SlotException
  ∧ ∃ db' h,
      Compact.make_double_key_hash quick_sha3 ∅ (2 ^ 255) 0 0 value_11 value_22
      = Ok (db', h).
Proof.
  split.
  - apply (proj1 (double_key_hash_outcome quick_sha3 ∅ 5 5 0 value_11 value_22
                    ltac:(lia))).
    reflexivity.
  - apply (proj2 (double_key_hash_outcome quick_sha3 ∅ (2 ^ 255) 0 0 value_11 value_22
                    ltac:(lia)) 255); [lia|].
    vm_compute. discriminate.
Defined.

Lemma missing_root_raises_witness :
  Eager.get ∅ key_01 key_02 = Raise TypeError
  ∧ Eager.update quick_sha3 ∅ key_01 key_02 value_11 = Raise TypeError
  ∧ Eager.make_merkle_proof ∅ key_01 key_02 = Raise TypeError
  ∧ (key_01 ≠ zerohash quick_sha3 0 →
     Compact.get quick_sha3 ∅ key_01 key_02 = Raise TypeError
     ∧ Compact.update quick_sha3 ∅ key_01 key_02 value_11 = Raise TypeError).
Proof.
  apply (missing_root_raises quick_sha3 ∅ key_01 key_02 value_11). reflexivity.
Defined.

(** The proof of [0x00..01] on the eager tree of [0x00..01 -> 0x11..11]. *)
Lemma eager_one_leaf_proof :
  Eager.make_merkle_proof (eager_tree one_leaf).1.1 (eager_tree one_leaf).1.2 key_01
  = Ok (expect [] (Eager.make_merkle_proof (eager_tree one_leaf).1.1
                     (eager_tree one_leaf).1.2 key_01)).
Proof. apply expect_Ok. vm_compute. reflexivity. Qed.

Lemma update_keeps_old_proof_witness :
  ∃ db' root',
    Eager.update quick_sha3 (eager_tree one_leaf).1.1 (eager_tree one_leaf).1.2
      key_01 value_22 = Ok (db', root')
    ∧ Eager.verify_proof quick_sha3
        (expect [] (Eager.make_merkle_proof (eager_tree one_leaf).1.1
                      (eager_tree one_leaf).1.2 key_01))
        root' key_01 value_22 = Ok true.
Proof.
  apply (update_keeps_old_proof quick_sha3 _ _ key_01 value_22 _ eager_one_leaf_proof).
Defined.

Lemma eager_proof_any_key_witness :
  ∃ proof,
    Eager.make_merkle_proof (eager_tree two_leaves).1.1 (eager_tree two_leaves).1.2 key_00
    = Ok proof
    ∧ length proof = 256%nat
    ∧ Forall (λ s, length s = 32%nat) proof
    ∧ Eager.verify_proof quick_sha3 proof (eager_tree two_leaves).1.2 key_00 zero32
      = Ok true.
Proof.
  apply (eager_proof_any_key quick_sha3 length_quick_sha3 two_leaves _ _ key_00).
  - exact eager_two_leaves_run.
  - reflexivity.
Defined.

Lemma verify_proof_binds_value_witness :
  Eager.verify_proof quick_sha3
    (expect [] (Eager.make_merkle_proof (eager_tree one_leaf).1.1
                  (eager_tree one_leaf).1.2 key_01))
    (eager_tree one_leaf).1.2 key_01 value_22 = Ok false.
Proof.
  apply (verify_proof_binds_value quick_sha3 _ _ key_01 value_11 value_22).
  - vm_compute. reflexivity.
  - eapply collision_free_weaken;
      [|apply (collision_freeb_spec quick_sha3
                 (graft_nodes quick_sha3
                    (zip (path_flags 256 (Eager.key_to_path key_01))
                       (expect [] (Eager.make_merkle_proof (eager_tree one_leaf).1.1
                                     (eager_tree one_leaf).1.2 key_01))) value_11
                  ++ graft_nodes quick_sha3
                       (zip (path_flags 256 (Eager.key_to_path key_01))
                          (expect [] (Eager.make_merkle_proof (eager_tree one_leaf).1.1
                                        (eager_tree one_leaf).1.2 key_01))) value_22));
       vm_compute; reflexivity].
    intros x Hx. apply elem_of_app. exact Hx.
  - vm_compute. reflexivity.
  - intros H. vm_compute in H. discriminate H.
Defined.


Lemma compress_proof_format_witness :
  ∃ c, Eager.compress_proof toy_sha3 sample_proof = Ok c
       ∧ drop 32 c = payload toy_sha3 0 sample_proof
       ∧ ∀ j, bit_at (byte_to_Z <$> take 32 c) j = elided toy_sha3 sample_proof j.
Proof.
  apply (compress_proof_format toy_sha3 sample_proof).
  replace (length sample_proof) with 256%nat by reflexivity. lia.
Defined.

Lemma compress_proof_too_long_witness :
  Eager.compress_proof quick_sha3 (repeat zero32 257) = Raise IndexError.
Proof.
  apply (compress_proof_too_long quick_sha3 (repeat zero32 257)).
  rewrite repeat_length. lia.
Defined.
